(** * custom.js: the page script of the portfolio site, embedded in Rocq

    The script is a handful of independent components (theme switch,
    contact form validator, scroll reveal, back-to-top button, word
    reveal, skill bars).  Each one is modelled below in a module of its
    own, over a small model of the parts of the browser it touches:
    strings as lists of UTF-16 code units, numbers as binary64 floats,
    class lists as ordered token lists, attribute/style/storage tables
    as finite maps. *)

From Stdlib Require Import ZArith NArith List Bool Lia Floats Ascii String.
From stdpp Require Import gmap list.

Set Warnings "-inexact-float,-register-all".

Local Open Scope N_scope.

(** ** JavaScript strings *)

Module JS.

(** A JavaScript string is a sequence of 16-bit code units. *)
Abbreviation jsstring := (list N).

(** String literals of the source that are plain ASCII. *)
Definition js (s : string) : jsstring :=
  map N_of_ascii (list_ascii_of_string s).

(** ECMAScript [WhiteSpace] and [LineTerminator] code points: what both
    the regular expression class [\s] and [String.prototype.trim] use. *)
Definition is_ws (c : N) : bool :=
  (c =? 9) || (c =? 10) || (c =? 11) || (c =? 12) || (c =? 13) ||
  (c =? 32) || (c =? 160) || (c =? 5760) ||
  ((8192 <=? c) && (c <=? 8202)) ||
  (c =? 8232) || (c =? 8233) || (c =? 8239) || (c =? 8287) ||
  (c =? 12288) || (c =? 65279).

Fixpoint drop_ws (s : jsstring) : jsstring :=
  match s with
  | [] => []
  | c :: s' => if is_ws c then drop_ws s' else s
  end.

(** [s.trim()] *)
Definition trim (s : jsstring) : jsstring :=
  rev (drop_ws (rev (drop_ws s))).

(** [String(b)] for a boolean, as [setAttribute] stringifies its value. *)
Definition string_of_bool (b : bool) : jsstring :=
  if b then js "true" else js "false".

(** [!v] for a value that is [undefined] or a string: true for
    [undefined] and for the empty string. *)
Definition falsy (v : option jsstring) : bool :=
  match v with
  | None => true
  | Some [] => true
  | Some (_ :: _) => false
  end.

End JS.
Import JS.

(** ** Regular expressions

    The fragment of the regular expression language the script uses:
    character classes, concatenation, [+], and the anchors [^ $] around
    the whole pattern.  [test] on an anchored pattern without flags asks
    whether the whole string belongs to the pattern's language; it is
    computed here by Brzozowski derivatives. *)

Module Regex.

Inductive regex : Type :=
| Void
| Eps
| Class (p : N -> bool)
| Cat (r1 r2 : regex)
| Alt (r1 r2 : regex)
| Star (r : regex).

(** [r+] *)
Definition Plus (r : regex) : regex := Cat r (Star r).

(** A single literal character. *)
Definition Chr (c : N) : regex := Class (N.eqb c).

Inductive lang : regex -> jsstring -> Prop :=
| lang_eps : lang Eps []
| lang_class p c : p c = true -> lang (Class p) [c]
| lang_cat r1 r2 s1 s2 :
    lang r1 s1 -> lang r2 s2 -> lang (Cat r1 r2) (s1 ++ s2)
| lang_alt_l r1 r2 s : lang r1 s -> lang (Alt r1 r2) s
| lang_alt_r r1 r2 s : lang r2 s -> lang (Alt r1 r2) s
| lang_star_nil r : lang (Star r) []
| lang_star_app r s1 s2 :
    lang r s1 -> lang (Star r) s2 -> lang (Star r) (s1 ++ s2).

Fixpoint nullable (r : regex) : bool :=
  match r with
  | Void => false
  | Eps => true
  | Class _ => false
  | Cat r1 r2 => nullable r1 && nullable r2
  | Alt r1 r2 => nullable r1 || nullable r2
  | Star _ => true
  end.

Fixpoint deriv (c : N) (r : regex) : regex :=
  match r with
  | Void => Void
  | Eps => Void
  | Class p => if p c then Eps else Void
  | Cat r1 r2 =>
      if nullable r1
      then Alt (Cat (deriv c r1) r2) (deriv c r2)
      else Cat (deriv c r1) r2
  | Alt r1 r2 => Alt (deriv c r1) (deriv c r2)
  | Star r1 => Cat (deriv c r1) (Star r1)
  end.

(** [/^r$/.test(s)] *)
Fixpoint test (r : regex) (s : jsstring) : bool :=
  match s with
  | [] => nullable r
  | c :: s' => test (deriv c r) s'
  end.

End Regex.
Import Regex.

(** ** Contact form: the email pattern *)

(** The class [[^\s@]]. *)
Definition not_space_at (c : N) : bool := negb (is_ws c) && negb (c =? 64).

(** The pattern [^[^\s@]+@[^\s@]+\.[^\s@]+$]. *)
Definition email_pattern : regex :=
  Cat (Plus (Class not_space_at))
    (Cat (Chr 64)
       (Cat (Plus (Class not_space_at))
          (Cat (Chr 46) (Plus (Class not_space_at))))).

(** [function isValidEmail(email)] *)
Definition isValidEmail (email : jsstring) : bool := test email_pattern email.

(** The shape the pattern describes: [l@d.t] with [l], [d], [t] non-empty
    and free of whitespace and ['@'].  The dot is any dot of the part
    after the ['@'] ([d] and [t] may contain dots themselves). *)
Definition email_shape (s : jsstring) : Prop :=
  exists l d t : jsstring,
    s = l ++ [64] ++ d ++ [46] ++ t /\
    l <> [] /\ d <> [] /\ t <> [] /\
    forallb not_space_at l = true /\
    forallb not_space_at d = true /\
    forallb not_space_at t = true.

(** The shape as the specification words it: as above, but the dot that
    separates domain and top-level part is the final dot of the string,
    so at least one character follows the final dot. *)
Definition email_shape_spec (s : jsstring) : Prop :=
  exists l d t : jsstring,
    s = l ++ [64] ++ d ++ [46] ++ t /\
    l <> [] /\ d <> [] /\ t <> [] /\
    forallb not_space_at l = true /\
    forallb not_space_at d = true /\
    forallb not_space_at t = true /\
    ~ In 46 t.

(** ** The parts of the DOM the script touches *)

Module ClassList.

(** A [DOMTokenList]: an ordered set of class names. *)

Definition contains (c : jsstring) (l : list jsstring) : bool :=
  bool_decide (c ∈ l).

Definition add (c : jsstring) (l : list jsstring) : list jsstring :=
  if contains c l then l else l ++ [c].

Definition remove (c : jsstring) (l : list jsstring) : list jsstring :=
  filter (λ x, x ≠ c) l.

(** [toggle] returns the new list and whether the token is now present. *)
Definition toggle (c : jsstring) (l : list jsstring)
  : list jsstring * bool :=
  if contains c l then (remove c l, false) else (l ++ [c], true).

End ClassList.

Module Dom.

Record Element := mkElement {
  classList : list jsstring;
  textContent : jsstring;
  attributes : gmap jsstring jsstring;
  style : gmap jsstring jsstring
}.

Definition set_classList (l : list jsstring) (e : Element) : Element :=
  mkElement l (textContent e) (attributes e) (style e).

Definition set_textContent (t : jsstring) (e : Element) : Element :=
  mkElement (classList e) t (attributes e) (style e).

Definition setAttribute (k v : jsstring) (e : Element) : Element :=
  mkElement (classList e) (textContent e) (<[k := v]> (attributes e)) (style e).

Definition set_style (k v : jsstring) (e : Element) : Element :=
  mkElement (classList e) (textContent e) (attributes e) (<[k := v]> (style e)).

Definition classList_add (c : jsstring) (e : Element) : Element :=
  set_classList (ClassList.add c (classList e)) e.

End Dom.
Import Dom.

(** ** Contact form validation *)

Module ContactForm.

(** A form control: its [name] attribute, its current value, and the
    default value [form.reset()] restores. *)
Record Control := mkControl {
  name : jsstring;
  value : jsstring;
  defaultValue : jsstring
}.

(** The calls the submit handler makes, in order. *)
Inductive Call :=
| PreventDefault
| ShowFormMessage (text color : jsstring)
| IsValidEmail (email : jsstring)
| FormReset.

(** What the handler reads and writes: the controls of [#contactForm] in
    document order, the [#formMsg] element, and the calls made so far. *)
Record World := mkWorld {
  form : list Control;
  formMsg : option Element;
  log : list Call
}.

Definition msg_fill : jsstring := js "Please fill all fields!".
Definition msg_invalid : jsstring := js "Please enter a valid email address!".
Definition msg_success : jsstring := js "Message sent successfully!".
Definition red : jsstring := js "red".
Definition green : jsstring := js "green".

(** The handler threads the world through its statements. *)
Definition Handler (A : Type) : Type := World -> A * World.

#[local] Instance handler_ret : MRet Handler := fun A a w => (a, w).

#[local] Instance handler_bind : MBind Handler :=
  fun A B k m w => let (a, w') := m w in k a w'.

Definition gets {A} (f : World -> A) : Handler A := fun w => (f w, w).

Definition modify (f : World -> World) : Handler unit := fun w => (tt, f w).

Definition called (c : Call) : Handler unit :=
  modify (fun w => mkWorld (form w) (formMsg w) (log w ++ [c])).

(** [form.querySelector('[name="..."]')]: the first control of that name. *)
Definition querySelector (nm : jsstring) : Handler (option Control) :=
  gets (fun w => List.find (fun c => bool_decide (name c = nm)) (form w)).

(** [ctl?.value.trim()] *)
Definition value_trim (ctl : option Control) : option jsstring :=
  (fun c => trim (value c)) <$> ctl.

(** [String(v)] for a value that is [undefined] or a string. *)
Definition to_string (v : option jsstring) : jsstring :=
  default (js "undefined") v.

(** [function showFormMessage(text, color)] *)
Definition showFormMessage (text color : jsstring) : Handler unit :=
  called (ShowFormMessage text color) ;;
  modify (fun w =>
    match formMsg w with
    | None => w
    | Some el =>
        mkWorld (form w)
          (Some (set_style (js "color") color (set_textContent text el)))
          (log w)
    end).

(** The call [isValidEmail(email)]. *)
Definition check_email (email : option jsstring) : Handler bool :=
  called (IsValidEmail (to_string email)) ;;
  mret (isValidEmail (to_string email)).

(** [form.reset()]: every control goes back to its default value. *)
Definition reset_control (c : Control) : Control :=
  mkControl (name c) (defaultValue c) (defaultValue c).

Definition form_reset : Handler unit :=
  called FormReset ;;
  modify (fun w => mkWorld (map reset_control (form w)) (formMsg w) (log w)).

(** The submit listener. *)
Definition on_submit : Handler unit :=
  called PreventDefault ;;
  c_name ← querySelector (js "name") ;
  c_email ← querySelector (js "email") ;
  c_message ← querySelector (js "message") ;
  let name := value_trim c_name in
  let email := value_trim c_email in
  let message := value_trim c_message in
  if falsy name || falsy email || falsy message then
    showFormMessage msg_fill red
  else
    valid ← check_email email ;
    if negb valid then
      showFormMessage msg_invalid red
    else
      showFormMessage msg_success green ;;
      form_reset.

(** The page as the script finds it: [$('#contactForm')] and
    [$('#formMsg')], either of which may be missing. *)
Record Page := mkPage {
  contactForm : option (list Control);
  formMsgEl : option Element
}.

(** A submit event.  The listener exists only if both elements were
    found at load ([if (form && formMsg)]); [None] means no listener
    runs. *)
Definition submit (pg : Page) : option World :=
  match contactForm pg, formMsgEl pg with
  | Some f, Some m => Some (snd (on_submit (mkWorld f (Some m) [])))
  | _, _ => None
  end.

(** The three trimmed fields of a form, as the handler reads them. *)
Definition field (nm : jsstring) (f : list Control) : option jsstring :=
  value_trim (List.find (fun c => bool_decide (name c = nm)) f).

(** Validation succeeds: the three trimmed fields are non-empty and the
    email passes the pattern. *)
Definition validates (f : list Control) : bool :=
  negb (falsy (field (js "name") f)) &&
  negb (falsy (field (js "email") f)) &&
  negb (falsy (field (js "message") f)) &&
  isValidEmail (to_string (field (js "email") f)).

(** [#formMsg] after [showFormMessage(text, color)]. *)
Definition show (text color : jsstring) (m : option Element)
  : option Element :=
  (fun el => set_style (js "color") color (set_textContent text el)) <$> m.

(** The message [#formMsg] displays: its text and colour. *)
Definition shown (w : World) : option (jsstring * option jsstring) :=
  (fun el => (textContent el, style el !! js "color")) <$> formMsg w.

End ContactForm.

(** ** Dark mode toggle *)

Module Theme.

(** [document.body.classList], [$('#themeToggle')] (possibly missing)
    and [localStorage]. *)
Record Page := mkPage {
  body : list jsstring;
  themeToggle : option Element;
  localStorage : gmap jsstring jsstring
}.

Definition dark : jsstring := js "dark".
Definition light : jsstring := js "light".
Definition theme : jsstring := js "theme".
Definition aria_pressed : jsstring := js "aria-pressed".

(** The two icon literals, code unit by code unit as the source file
    holds them: the first is shown while the page is dark (it offers
    light mode), the second while it is light. *)
Definition icon_light_mode : jsstring := [226; 732; 8364; 239; 184].
Definition icon_dark_mode : jsstring := [240; 376; 338; 8482].

Definition has_dark (pg : Page) : bool := ClassList.contains dark (body pg).

(** The block that runs at load. *)
Definition load (pg : Page) : Page :=
  match themeToggle pg with
  | None => pg
  | Some t =>
      let savedTheme := localStorage pg !! theme in
      if bool_decide (savedTheme = Some dark) then
        mkPage (ClassList.add dark (body pg))
          (Some (setAttribute aria_pressed (js "true")
                   (set_textContent icon_light_mode t)))
          (localStorage pg)
      else
        mkPage (body pg)
          (Some (setAttribute aria_pressed (js "false") t))
          (localStorage pg)
  end.

(** The click listener of the toggle; without the toggle there is no
    listener. *)
Definition click (pg : Page) : Page :=
  match themeToggle pg with
  | None => pg
  | Some t =>
      let (classes, isDark) := ClassList.toggle dark (body pg) in
      mkPage classes
        (Some (setAttribute aria_pressed (string_of_bool isDark)
                 (set_textContent
                    (if isDark then icon_light_mode else icon_dark_mode) t)))
        (<[theme := if isDark then dark else light]> (localStorage pg))
  end.

End Theme.

(** ** Scroll reveal *)

Module Reveal.

(** An [IntersectionObserverEntry]: the browser's verdict for one target,
    an element of the document named by its key. *)
Record Entry := mkEntry {
  isIntersecting : bool;
  target : nat
}.

(** The elements of the document and the targets the observer watches. *)
Record State := mkState {
  document : gmap nat Element;
  observed : gset nat
}.

Definition active : jsstring := js "active".
Definition reveal : jsstring := js "reveal".

(** The observer's option [{ threshold: 0.1 }]. *)
Definition threshold : float := 0.1%float.

(** The body of [entries.forEach(entry => ...)]. *)
Definition on_entry (s : State) (e : Entry) : State :=
  if isIntersecting e then
    mkState (alter (classList_add active) (target e) (document s))
      (observed s ∖ {[target e]})
  else s.

(** The observer callback. *)
Definition callback (entries : list Entry) (s : State) : State :=
  foldl on_entry s entries.

(** A sequence of notifications, each a batch of entries. *)
Definition notify (batches : list (list Entry)) (s : State) : State :=
  foldl (fun s' b => callback b s') s batches.

(** [$$('.reveal')] *)
Definition revealElements (doc : gmap nat Element) : gset nat :=
  dom (filter (λ kv, reveal ∈ classList kv.2) doc).

(** The block that runs at load; [supported] is
    ['IntersectionObserver' in window]. *)
Definition init (supported : bool) (doc : gmap nat Element) : State :=
  if bool_decide (0 < size (revealElements doc))%nat then
    if supported then mkState doc (revealElements doc)
    else
      mkState
        (set_fold (fun el d => alter (classList_add active) el d) doc
           (revealElements doc))
        ∅
  else mkState doc ∅.

Definition is_active (s : State) (el : nat) : bool :=
  match document s !! el with
  | Some e => ClassList.contains active (classList e)
  | None => false
  end.

(** The states the page goes through while the entries of the
    notifications are handled one after the other. *)
Fixpoint trace (s : State) (entries : list Entry) : list State :=
  s :: match entries with
       | [] => []
       | e :: rest => trace (on_entry s e) rest
       end.

(** How often [el] goes from inactive to active along a list of states,
    and how often from active back to inactive. *)
Fixpoint activations (el : nat) (tr : list State) : nat :=
  match tr with
  | s1 :: ((s2 :: _) as tr') =>
      (if negb (is_active s1 el) && is_active s2 el then 1 else 0)%nat
      + activations el tr'
  | _ => 0%nat
  end.

Fixpoint deactivations (el : nat) (tr : list State) : nat :=
  match tr with
  | s1 :: ((s2 :: _) as tr') =>
      (if is_active s1 el && negb (is_active s2 el) then 1 else 0)%nat
      + deactivations el tr'
  | _ => 0%nat
  end.

End Reveal.

(** ** Back to top button *)

Module BackToTop.

Record Window := mkWindow {
  scrollY : float;
  backToTopBtn : option Element
}.

Definition display : jsstring := js "display".

(** The scroll listener; without the button there is no listener. *)
Definition on_scroll (w : Window) : Window :=
  match backToTopBtn w with
  | None => w
  | Some b =>
      mkWindow (scrollY w)
        (Some (set_style display
                 (if (300 <? scrollY w)%float then js "block" else js "none")
                 b))
  end.

(** What the button's inline style says after the event. *)
Definition displayed (w : Window) : option jsstring :=
  backToTopBtn w ≫= fun b => style b !! display.

End BackToTop.

(** ** Word by word text reveal *)

Module Words.

Definition starts_ws (s : jsstring) : bool :=
  match s with
  | c :: _ => is_ws c
  | [] => false
  end.

(** [w] contains no whitespace. *)
Definition no_ws (w : jsstring) : bool :=
  forallb (fun c => negb (is_ws c)) w.

(** The last code unit of [s] is whitespace. *)
Fixpoint ends_ws (s : jsstring) : bool :=
  match s with
  | [] => false
  | [c] => is_ws c
  | _ :: s' => ends_ws s'
  end.

(** [s.split(/\s+/)]: the pieces of [s] between maximal runs of
    whitespace.  A run at either end leaves an empty piece there, and the
    empty string has the single piece [""]. *)
Fixpoint split_ws (s : jsstring) : list jsstring :=
  match s with
  | [] => [[]]
  | c :: s' =>
      if is_ws c then
        if starts_ws s' then split_ws s' else [] :: split_ws s'
      else
        match split_ws s' with
        | w :: ws => (c :: w) :: ws
        | [] => [[c]]
        end
  end.

(** The words of a text, as the specification speaks of them: its
    maximal runs of code units that are not whitespace. *)
Definition starts_word (s : jsstring) : bool :=
  match s with
  | c :: _ => negb (is_ws c)
  | [] => false
  end.

Fixpoint words_of (s : jsstring) : list jsstring :=
  match s with
  | [] => []
  | c :: s' =>
      if is_ws c then words_of s'
      else if starts_word s' then
        match words_of s' with
        | w :: ws => (c :: w) :: ws
        | [] => [[c]]
        end
      else [c] :: words_of s'
  end.

Definition nonempty (w : jsstring) : bool :=
  match w with
  | [] => false
  | _ :: _ => true
  end.

(** The inline style properties the script sets.  [animationDelay] holds
    the number [x] of the string [`${x}s`]. *)
Record Style := mkStyle {
  marginRight : option jsstring;
  animationDelay : option float
}.

Inductive Node :=
| TextNode (data : jsstring)
| ElementNode (tag className : jsstring) (style : Style)
    (children : list Node).

Fixpoint text_of (n : Node) : jsstring :=
  match n with
  | TextNode d => d
  | ElementNode _ _ _ ch => concat (map text_of ch)
  end.

(** The [textContent] getter of an element with these children. *)
Definition textContent (children : list Node) : jsstring :=
  concat (map text_of children).

(** The [textContent] setter: the children it leaves. *)
Definition set_text (s : jsstring) : list Node :=
  match s with
  | [] => []
  | _ => [TextNode s]
  end.

(** The array index [i] as a number. *)
Definition number_of_index (i : nat) : float :=
  PrimFloat.of_uint63 (Uint63.of_Z (Z.of_nat i)).

(** The span built for [word] at position [index]. *)
Definition word_span (index : nat) (word : jsstring) : Node :=
  ElementNode (js "span") (js "word")
    (mkStyle (Some (js "0.4rem"))
       (Some (number_of_index index * 0.1)%float))
    (set_text word).

(** [words.forEach((word, index) => { ...; el.appendChild(span); })],
    from position [index] on. *)
Fixpoint append_words (index : nat) (words : list jsstring)
    (children : list Node) : list Node :=
  match words with
  | [] => children
  | word :: rest =>
      append_words (S index) rest (children ++ [word_span index word])
  end.

(** The body of [wordAnimatedElements.forEach]: from the children of an
    element to its children afterwards. *)
Definition animate (children : list Node) : list Node :=
  let words := split_ws (trim (textContent children)) in
  append_words 0 words (set_text []).

End Words.

(** ** Skill bars *)

Module Skills.

(** The [span] inside [.bar]: its [data-skill] attribute and the width
    the script gives it. *)
Record Bar := mkBar {
  dataset_skill : option jsstring;
  width : option jsstring
}.

(** A [.skill] item: its classes and what [querySelector('.bar span')]
    finds in it. *)
Record Skill := mkSkill {
  classList : list jsstring;
  bar : option Bar
}.

Record Entry := mkEntry {
  isIntersecting : bool;
  target : nat
}.

(** A pending [setTimeout]: its delay in milliseconds and the variables
    its closure holds. *)
Record Timer := mkTimer {
  delay : nat;
  timer_skill : nat;
  timer_target : option jsstring
}.

Record State := mkState {
  document : gmap nat Skill;
  observed : gset nat;
  timers : list Timer
}.

(** A callback either runs to its end or throws a [TypeError]; the state
    is the one reached at that point. *)
Inductive Outcome :=
| Completed (s : State)
| TypeError (s : State).

(** The body of [entries.forEach((entry, index) => ...)]. *)
Definition on_entry (index : nat) (e : Entry) (s : State) : Outcome :=
  if negb (isIntersecting e) then Completed s
  else
    match document s !! target e ≫= bar with
    | None => TypeError s
    | Some b =>
        Completed
          (mkState (document s)
             (observed s ∖ {[target e]})
             (timers s ++ [mkTimer (index * 180) (target e) (dataset_skill b)]))
    end.

Fixpoint callback_from (index : nat) (entries : list Entry) (s : State)
  : Outcome :=
  match entries with
  | [] => Completed s
  | e :: rest =>
      match on_entry index e s with
      | Completed s' => callback_from (S index) rest s'
      | TypeError s' => TypeError s'
      end
  end.

(** The observer callback. *)
Definition callback (entries : list Entry) (s : State) : Outcome :=
  callback_from 0 entries s.

(** [`${target}%`] *)
Definition percent (v : option jsstring) : jsstring :=
  default (js "undefined") v ++ js "%".

(** A timer firing.  [accepts] is the browser's check that a string is a
    valid value of the CSS [width] property: the setter of [style.width]
    ignores any other string and leaves the width as it was. *)
Definition fire (accepts : jsstring -> bool) (t : Timer) (s : State)
  : State :=
  mkState
    (alter (fun sk =>
              mkSkill (ClassList.add (js "active") (classList sk))
                ((fun b =>
                    mkBar (dataset_skill b)
                      (if accepts (percent (timer_target t))
                       then Some (percent (timer_target t))
                       else width b)) <$> bar sk))
       (timer_skill t) (document s))
    (observed s) (timers s).

End Skills.

(** ** Mobile menu toggle *)

Module Nav.

(** [$('#navToggle')] and [$('#nav')], either of which may be missing. *)
Record Page := mkPage {
  navToggle : option Element;
  nav : option Element
}.

Definition show : jsstring := js "show".
Definition aria_expanded : jsstring := js "aria-expanded".

(** The statements both closing listeners share:
    [nav.classList.remove('show')] and
    [navToggle.setAttribute('aria-expanded', 'false')]. *)
Definition close (t n : Element) : Page :=
  mkPage (Some (setAttribute aria_expanded (js "false") t))
    (Some (set_classList (ClassList.remove show (classList n)) n)).

(** The click listener of the toggle.  Listeners exist only when both
    elements were found ([if (navToggle && nav)]). *)
Definition on_toggle_click (pg : Page) : Page :=
  match navToggle pg, nav pg with
  | Some t, Some n =>
      let (classes, isOpen) := ClassList.toggle show (classList n) in
      mkPage (Some (setAttribute aria_expanded (string_of_bool isOpen) t))
        (Some (set_classList classes n))
  | _, _ => pg
  end.

(** The click listener of each link inside the menu. *)
Definition on_link_click (pg : Page) : Page :=
  match navToggle pg, nav pg with
  | Some t, Some n => close t n
  | _, _ => pg
  end.

(** A click, as the listeners see it: the element listeners met while it
    bubbles from its target up to the document, in that order, and what
    [nav.contains(e.target)] and [navToggle.contains(e.target)] answer. *)
Inductive Listener := ToggleListener | LinkListener.

Record Click := mkClick {
  path : list Listener;
  in_nav : bool;
  in_toggle : bool
}.

(** The click listener of the document. *)
Definition on_document_click (e : Click) (pg : Page) : Page :=
  match navToggle pg, nav pg with
  | Some t, Some n =>
      if ClassList.contains show (classList n) &&
         negb (in_nav e) && negb (in_toggle e)
      then close t n
      else pg
  | _, _ => pg
  end.

Definition run (pg : Page) (l : Listener) : Page :=
  match l with
  | ToggleListener => on_toggle_click pg
  | LinkListener => on_link_click pg
  end.

(** One click event: the element listeners on its path, then the
    document's (no listener stops the propagation). *)
Definition dispatch (e : Click) (pg : Page) : Page :=
  on_document_click e (foldl run pg (path e)).

(** The menu is shown. *)
Definition is_open (pg : Page) : bool :=
  match nav pg with
  | Some n => ClassList.contains show (classList n)
  | None => false
  end.

(** The toggle's [aria-expanded] attribute. *)
Definition expanded (pg : Page) : option jsstring :=
  navToggle pg ≫= fun t => attributes t !! aria_expanded.

(** The attribute says what the menu's class says. *)
Definition in_sync (pg : Page) : Prop :=
  expanded pg = Some (string_of_bool (is_open pg)).

(** Both elements are on the page. *)
Definition installed (pg : Page) : Prop :=
  is_Some (navToggle pg) /\ is_Some (nav pg).

End Nav.

(** ** Helpers for stating what the listeners did *)

Module Effects.

(** The messages a list of calls displayed, in order. *)
Definition messages (calls : list ContactForm.Call)
  : list (jsstring * jsstring) :=
  flat_map (fun c => match c with
                     | ContactForm.ShowFormMessage text color => [(text, color)]
                     | _ => []
                     end) calls.

(** The field [nm] of a form is missing or holds only whitespace. *)
Definition blank (nm : jsstring) (f : list ContactForm.Control) : Prop :=
  match List.find (fun c => bool_decide (ContactForm.name c = nm)) f with
  | None => True
  | Some c => forallb is_ws (ContactForm.value c) = true
  end.

(** The page a later submit event finds after a handled one. *)
Definition page_of (w : ContactForm.World) : ContactForm.Page :=
  ContactForm.mkPage (Some (ContactForm.form w)) (ContactForm.formMsg w).

(** The targets a batch reports as intersecting. *)
Definition revealed (entries : list Reveal.Entry) : list nat :=
  Reveal.target <$> List.filter Reveal.isIntersecting entries.

(** What the reveal callback does to one element: add the active class
    if a batch revealed it. *)
Definition reveal_if (hit : bool) (x : Element) : Element :=
  if hit then classList_add Reveal.active x else x.

(** The timers the skill callback sets for a batch whose first entry has
    position [index]: one per intersecting entry, delayed by 180 ms times
    the entry's position, holding the [data-skill] value of its bar. *)
Fixpoint scheduled (index : nat) (entries : list Skills.Entry)
    (doc : gmap nat Skills.Skill) : list Skills.Timer :=
  match entries with
  | [] => []
  | e :: rest =>
      (if Skills.isIntersecting e then
         [Skills.mkTimer (index * 180) (Skills.target e)
            ((doc !! Skills.target e ≫= Skills.bar) ≫= Skills.dataset_skill)]
       else [])
      ++ scheduled (S index) rest doc
  end.

Definition skills_seen (entries : list Skills.Entry) : list nat :=
  Skills.target <$> List.filter Skills.isIntersecting entries.

(** A fresh load of the page: the body's classes and the toggle as the
    markup gives them, and the store as it was left. *)
Definition reload (body : list jsstring) (t : Element) (pg : Theme.Page)
  : Theme.Page :=
  Theme.load (Theme.mkPage body (Some t) (Theme.localStorage pg)).

(** The argument of [window.scrollTo] in the button's click listener. *)
Record ScrollToOptions := mkScrollTo {
  top : float;
  behavior : jsstring
}.

(** The click listener of the back-to-top button: the scroll it asks
    for. *)
Definition on_back_to_top_click : ScrollToOptions :=
  mkScrollTo 0%float (js "smooth").

(** A scroll event at offset [y]. *)
Definition scrolled (y : float) (w : BackToTop.Window) : BackToTop.Window :=
  BackToTop.on_scroll (BackToTop.mkWindow y (BackToTop.backToTopBtn w)).

(** The scroll events of a scroll passing through the offsets [ys]. *)
Definition scroll_through (ys : list float) (w : BackToTop.Window)
  : BackToTop.Window :=
  foldl (fun w' y => scrolled y w') w ys.

End Effects.

(** ** Sample pages *)

Module Examples.

Definition plain_element : Element := mkElement [] [] ∅ ∅.

(** A contact form with the three fields, empty by default. *)
Definition controls (n e m : jsstring) : list ContactForm.Control :=
  [ContactForm.mkControl (js "name") n [];
   ContactForm.mkControl (js "email") e [];
   ContactForm.mkControl (js "message") m []].

Definition contact_form (n e m : jsstring) : ContactForm.Page :=
  ContactForm.mkPage (Some (controls n e m)) (Some plain_element).

(** A first visit: nothing stored, the body not dark. *)
Definition first_visit : Theme.Page :=
  Theme.mkPage [] (Some plain_element) ∅.

(** A return visit after dark mode was chosen. *)
Definition dark_visit : Theme.Page :=
  Theme.mkPage [] (Some plain_element) {[Theme.theme := Theme.dark]}.

(** One reveal-flagged element, watched by the observer, and three
    notifications about it. *)
Definition reveal_doc : gmap nat Element :=
  {[ 0%nat := mkElement [Reveal.reveal] [] ∅ ∅ ]}.

Definition reveal_start : Reveal.State :=
  Reveal.mkState reveal_doc {[ 0%nat ]}.

Definition reveal_batches : list (list Reveal.Entry) :=
  [[Reveal.mkEntry false 0]; [Reveal.mkEntry true 0];
   [Reveal.mkEntry false 0; Reveal.mkEntry true 0]].

(** A page scrolled to 301 pixels. *)
Definition scrolled_301 : BackToTop.Window :=
  BackToTop.mkWindow 301%float (Some plain_element).

(** An element flagged for word animation, holding one text node. *)
Definition heading : list Words.Node :=
  [Words.TextNode (js "  Hello   wide world ")].

(** A skill item with no [.bar span] inside, watched by the observer. *)
Definition skills_without_bar : Skills.State :=
  Skills.mkState {[ 0%nat := Skills.mkSkill [js "skill"] None ]}
    {[ 0%nat ]} [].

End Examples.

(** ** More sample pages *)

Module Samples.

(** A page with a closed menu. *)
Definition closed_menu : Nav.Page :=
  Nav.mkPage (Some Examples.plain_element) (Some Examples.plain_element).

(** A click on the toggle button, one on a link of the menu, and one
    somewhere else on the page. *)
Definition click_on_toggle : Nav.Click :=
  Nav.mkClick [Nav.ToggleListener] false true.

Definition click_on_link : Nav.Click :=
  Nav.mkClick [Nav.LinkListener] true false.

Definition click_outside : Nav.Click := Nav.mkClick [] false false.

(** A document with one reveal-flagged element and one plain one. *)
Definition two_elements : gmap nat Element :=
  {[ 0%nat := mkElement [Reveal.reveal] [] ∅ ∅;
     1%nat := Examples.plain_element ]}.

(** Two skill items with their bars, the second without a [data-skill]
    attribute, both watched. *)
Definition two_skills : Skills.State :=
  Skills.mkState
    {[ 0%nat := Skills.mkSkill [js "skill"]
                  (Some (Skills.mkBar (Some (js "90")) None));
       1%nat := Skills.mkSkill [js "skill"]
                  (Some (Skills.mkBar None None)) ]}
    {[ 0%nat; 1%nat ]} [].

(** A filled-in contact form whose message box has a default text. *)
Definition prefilled : list ContactForm.Control :=
  [ContactForm.mkControl (js "name") (js "Jo") [];
   ContactForm.mkControl (js "email") (js "jo@example.com") [];
   ContactForm.mkControl (js "message") (js "hi") (js "Hello!")].

(** A contact form whose markup fills every field, submitted as it
    is. *)
Definition at_defaults : list ContactForm.Control :=
  [ContactForm.mkControl (js "name") (js "Jo") (js "Jo");
   ContactForm.mkControl (js "email") (js "jo@example.com")
     (js "jo@example.com");
   ContactForm.mkControl (js "message") (js "hi") (js "hi")].

(** A page that was loaded with the dark preference stored. *)
Definition dark_loaded : Theme.Page :=
  Theme.mkPage [Theme.dark] (Some Examples.plain_element)
    {[Theme.theme := Theme.dark]}.

(** A page whose body is dark although nothing is stored. *)
Definition dark_unstored : Theme.Page :=
  Theme.mkPage [Theme.dark] (Some Examples.plain_element) ∅.

(** An element flagged for word animation that holds only blanks. *)
Definition blank_heading : list Words.Node := [Words.TextNode (js "   ")].

(** A check that accepts the widths written as decimal digits followed
    by a percent sign, all of which are valid CSS. *)
Definition is_digit (c : N) : bool := (48 <=? c) && (c <=? 57).

Definition digits_percent (v : jsstring) : bool :=
  match rev v with
  | 37 :: ((_ :: _) as ds) => forallb is_digit ds
  | _ => false
  end.

End Samples.

(** *** The matcher computes the language *)

Lemma lang_cat_inv r1 r2 s :
  lang (Cat r1 r2) s ->
  exists s1 s2, s = s1 ++ s2 /\ lang r1 s1 /\ lang r2 s2.
Proof. intros H. inversion H; subst. eauto. Qed.

Lemma lang_alt_inv r1 r2 s : lang (Alt r1 r2) s -> lang r1 s \/ lang r2 s.
Proof. intros H. inversion H; subst; auto. Qed.

Lemma lang_class_inv p s :
  lang (Class p) s -> exists c, s = [c] /\ p c = true.
Proof. intros H. inversion H; subst. eauto. Qed.

Lemma nullable_lang r : nullable r = true <-> lang r [].
Proof.
  induction r as [| |p|r1 IH1 r2 IH2|r1 IH1 r2 IH2|r IH]; simpl.
  - split; [discriminate|intros H; inversion H].
  - split; [constructor|reflexivity].
  - split; [discriminate|intros H; inversion H].
  - rewrite andb_true_iff, IH1, IH2. split.
    + intros [H1 H2]. apply (lang_cat r1 r2 [] [] H1 H2).
    + intros H. apply lang_cat_inv in H as (s1 & s2 & Heq & H1 & H2).
      symmetry in Heq. apply app_eq_nil in Heq as [-> ->]. tauto.
  - rewrite orb_true_iff, IH1, IH2. split.
    + intros [H|H]; [now apply lang_alt_l|now apply lang_alt_r].
    + apply lang_alt_inv.
  - split; [constructor|reflexivity].
Qed.

Lemma lang_star_cons r c s :
  lang (Star r) (c :: s) ->
  exists s1 s2, s = s1 ++ s2 /\ lang r (c :: s1) /\ lang (Star r) s2.
Proof.
  intros H. remember (Star r) as r' eqn:Hr. remember (c :: s) as w eqn:Hw.
  revert s Hw. induction H; intros s' Hw; try discriminate.
  injection Hr as ->.
  destruct s1 as [|c1 s1].
  - simpl in Hw. apply IHlang2; auto.
  - simpl in Hw. injection Hw as -> <-.
    exists s1, s2. auto.
Qed.

Lemma lang_cat_cons r1 r2 c s1 s2 :
  lang r1 (c :: s1) -> lang r2 s2 -> lang (Cat r1 r2) (c :: s1 ++ s2).
Proof.
  intros H1 H2. change (c :: s1 ++ s2) with ((c :: s1) ++ s2).
  now constructor.
Qed.

Lemma deriv_lang c r : forall s, lang (deriv c r) s <-> lang r (c :: s).
Proof.
  induction r as [| |p|r1 IH1 r2 IH2|r1 IH1 r2 IH2|r IH]; simpl; intros s.
  - split; intros H; inversion H.
  - split; intros H; inversion H.
  - destruct (p c) eqn:Hp; split; intros H.
    + inversion H; subst. now constructor.
    + apply lang_class_inv in H as (c' & [= -> ->] & _). constructor.
    + inversion H.
    + apply lang_class_inv in H as (c' & [= -> ->] & Hc). congruence.
  - assert (Hcat : lang (Cat (deriv c r1) r2) s -> lang (Cat r1 r2) (c :: s)).
    { intros H. apply lang_cat_inv in H as (s1 & s2 & -> & H1 & H2).
      apply lang_cat_cons; [now apply IH1|assumption]. }
    assert (Hinv : lang (Cat r1 r2) (c :: s) ->
                   (lang r1 [] /\ lang r2 (c :: s)) \/
                   lang (Cat (deriv c r1) r2) s).
    { intros H. apply lang_cat_inv in H as (s1 & s2 & Heq & H1 & H2).
      destruct s1 as [|c1 s1]; simpl in Heq.
      - subst s2. now left.
      - injection Heq as <- ->. right.
        constructor; [now apply IH1|assumption]. }
    destruct (nullable r1) eqn:Hn; split; intros H.
    + apply lang_alt_inv in H as [H|H]; [now apply Hcat|].
      apply (lang_cat r1 r2 [] (c :: s));
        [now apply nullable_lang | now apply IH2].
    + apply Hinv in H as [[_ H]|H].
      * apply lang_alt_r. now apply IH2.
      * now apply lang_alt_l.
    + now apply Hcat.
    + apply Hinv in H as [[H _]|H]; [|assumption].
      apply nullable_lang in H. congruence.
  - split; intros H.
    + apply lang_alt_inv in H as [H|H];
        [apply lang_alt_l; now apply IH1 | apply lang_alt_r; now apply IH2].
    + apply lang_alt_inv in H as [H|H];
        [apply lang_alt_l; now apply IH1 | apply lang_alt_r; now apply IH2].
  - split; intros H.
    + apply lang_cat_inv in H as (s1 & s2 & -> & H1 & H2).
      change (c :: s1 ++ s2) with ((c :: s1) ++ s2).
      constructor; [now apply IH|assumption].
    + apply lang_star_cons in H as (s1 & s2 & -> & H1 & H2).
      constructor; [now apply IH|assumption].
Qed.

Lemma test_lang s : forall r, test r s = true <-> lang r s.
Proof.
  induction s as [|c s IH]; intros r; simpl.
  - apply nullable_lang.
  - rewrite IH. apply deriv_lang.
Qed.

(** *** Character classes under [*] and [+] *)

Lemma lang_star_class p s : lang (Star (Class p)) s <-> forallb p s = true.
Proof.
  split.
  - intros H. remember (Star (Class p)) as r eqn:Hr.
    induction H; try discriminate; [reflexivity|].
    injection Hr as ->.
    apply lang_class_inv in H as (c & -> & Hc). simpl.
    rewrite Hc. now apply IHlang2.
  - induction s as [|c s IH]; simpl; intros H.
    + constructor.
    + apply andb_true_iff in H as [Hc Hs].
      apply (lang_star_app (Class p) [c] s); [now constructor|auto].
Qed.

Lemma lang_plus_class p s :
  lang (Plus (Class p)) s <-> s <> [] /\ forallb p s = true.
Proof.
  unfold Plus. split.
  - intros H. apply lang_cat_inv in H as (s1 & s2 & -> & H1 & H2).
    apply lang_class_inv in H1 as (c & -> & Hc).
    apply lang_star_class in H2. simpl. rewrite Hc, H2. split; [discriminate|reflexivity].
  - intros [Hne H]. destruct s as [|c s]; [congruence|]. simpl in H.
    apply andb_true_iff in H as [Hc Hs].
    apply (lang_cat (Class p) (Star (Class p)) [c] s);
      [now constructor | now apply lang_star_class].
Qed.

Lemma lang_chr c s : lang (Chr c) s <-> s = [c].
Proof.
  unfold Chr. split.
  - intros H. apply lang_class_inv in H as (c' & -> & Hc).
    apply N.eqb_eq in Hc. now subst.
  - intros ->. constructor. apply N.eqb_refl.
Qed.

Lemma email_pattern_lang s : lang email_pattern s <-> email_shape s.
Proof.
  unfold email_pattern, email_shape. split.
  - intros H.
    apply lang_cat_inv in H as (l & s1 & -> & Hl & H).
    apply lang_cat_inv in H as (a & s2 & -> & Ha & H).
    apply lang_cat_inv in H as (d & s3 & -> & Hd & H).
    apply lang_cat_inv in H as (o & t & -> & Ho & Ht).
    apply lang_chr in Ha as ->. apply lang_chr in Ho as ->.
    apply lang_plus_class in Hl as [? ?].
    apply lang_plus_class in Hd as [? ?].
    apply lang_plus_class in Ht as [? ?].
    exists l, d, t. auto 10.
  - intros (l & d & t & -> & Hl & Hd & Ht & Fl & Fd & Ft).
    repeat (apply lang_cat);
      first [ now apply lang_plus_class | now apply lang_chr ].
Qed.

Lemma isValidEmail_shape s : isValidEmail s = true <-> email_shape s.
Proof.
  unfold isValidEmail. rewrite test_lang. apply email_pattern_lang.
Qed.

(** Every string of the shape the specification words is accepted. *)
Lemma email_shape_spec_accepted s : email_shape_spec s -> isValidEmail s = true.
Proof.
  intros (l & d & t & Hs & Hl & Hd & Ht & Fl & Fd & Ft & _).
  apply isValidEmail_shape. exists l, d, t. auto 10.
Qed.

(** A string of the specification's shape does not end in a dot. *)
Lemma email_shape_spec_last s : email_shape_spec s -> last s <> Some 46.
Proof.
  intros (l & d & t & -> & _ & _ & Ht & _ & _ & _ & Hdot) Hlast.
  apply Hdot.
  destruct t as [|x t' _] using rev_ind; [congruence|].
  replace (l ++ [64] ++ d ++ [46] ++ t' ++ [x])
    with ((l ++ [64] ++ d ++ [46] ++ t') ++ [x]) in Hlast
    by now rewrite <- !app_assoc.
  rewrite last_snoc in Hlast. injection Hlast as ->.
  apply in_or_app. right. now left.
Qed.

(** The last dot of a string that has one. *)
Lemma split_last_dot (t : jsstring) :
  In 46 t -> exists t1 t2, t = t1 ++ 46 :: t2 /\ ~ In 46 t2.
Proof.
  induction t as [|c t IH]; intros Hin; [destruct Hin|].
  destruct (in_dec N.eq_dec 46 t) as [Ht|Ht].
  - destruct (IH Ht) as (t1 & t2 & -> & Hno).
    exists (c :: t1), t2. auto.
  - destruct Hin as [->|Hin]; [|contradiction].
    exists [], t. auto.
Qed.

(** A string the pattern accepts has the specification's shape unless it
    ends in a dot. *)
Lemma email_shape_spec_or_trailing_dot s :
  email_shape s <-> email_shape_spec s \/ (email_shape s /\ last s = Some 46).
Proof.
  split.
  - intros Hs. destruct (decide (last s = Some 46)) as [Hl|Hl]; [auto|left].
    destruct Hs as (l & d & t & -> & Hl0 & Hd & Ht & Fl & Fd & Ft).
    destruct (in_dec N.eq_dec 46 t) as [Hin|Hin];
      [|exists l, d, t; auto 10].
    destruct (split_last_dot t Hin) as (t1 & t2 & -> & Hno).
    rewrite forallb_app in Ft. apply andb_true_iff in Ft as [Ft1 Ft2].
    simpl in Ft2.
    exists l, (d ++ [46] ++ t1), t2.
    split; [now rewrite <- !app_assoc|].
    split; [assumption|].
    split; [now destruct d|].
    split.
    { intros ->. apply Hl.
      replace (l ++ [64] ++ d ++ [46] ++ t1 ++ [46])
        with ((l ++ [64] ++ d ++ [46] ++ t1) ++ [46])
        by now rewrite <- !app_assoc.
      apply last_snoc. }
    split; [assumption|].
    split; [|auto].
    rewrite !forallb_app, Fd, Ft1. reflexivity.
  - intros [H|[H _]]; [|exact H].
    destruct H as (l & d & t & Hs & Hl & Hd & Ht & Fl & Fd & Ft & _).
    exists l, d, t. auto 10.
Qed.

(** ** Contact form *)

Section ContactFormFacts.
Import ContactForm.

Lemma showFormMessage_run text color w :
  showFormMessage text color w =
  (tt, mkWorld (form w) (show text color (formMsg w))
         (log w ++ [ShowFormMessage text color])).
Proof.
  unfold showFormMessage, called, modify, show, mbind, handler_bind; simpl.
  destruct (formMsg w); reflexivity.
Qed.

Lemma on_submit_run w :
  on_submit w =
  (tt,
   if falsy (field (js "name") (form w)) ||
      falsy (field (js "email") (form w)) ||
      falsy (field (js "message") (form w))
   then
     mkWorld (form w) (show msg_fill red (formMsg w))
       (log w ++ [PreventDefault; ShowFormMessage msg_fill red])
   else if isValidEmail (to_string (field (js "email") (form w)))
   then
     mkWorld (map reset_control (form w))
       (show msg_success green (formMsg w))
       (log w ++ [PreventDefault;
                  IsValidEmail (to_string (field (js "email") (form w)));
                  ShowFormMessage msg_success green; FormReset])
   else
     mkWorld (form w) (show msg_invalid red (formMsg w))
       (log w ++ [PreventDefault;
                  IsValidEmail (to_string (field (js "email") (form w)));
                  ShowFormMessage msg_invalid red])).
Proof.
  unfold on_submit, field, querySelector, check_email, form_reset, called,
    gets, modify, mbind, mret, handler_bind, handler_ret.
  cbn beta iota zeta delta [form formMsg log fst snd].
  destruct (_ || _ || _).
  - rewrite showFormMessage_run; cbn [form formMsg log].
    now rewrite <- app_assoc.
  - destruct (isValidEmail _); cbn [negb form formMsg log].
    + rewrite showFormMessage_run; cbn [form formMsg log].
      now rewrite <- !app_assoc.
    + rewrite showFormMessage_run; cbn [form formMsg log].
      now rewrite <- !app_assoc.
Qed.

Lemma shown_show text color m f l :
  shown (mkWorld f (show text color (Some m)) l) = Some (text, Some color).
Proof. unfold shown, show; simpl. now rewrite lookup_insert_eq. Qed.

Lemma submit_run pg f m :
  contactForm pg = Some f -> formMsgEl pg = Some m ->
  submit pg = Some (snd (on_submit (mkWorld f (Some m) []))).
Proof. intros Hf Hm. unfold submit. now rewrite Hf, Hm. Qed.

(** Run a submission of a page that has both elements. *)
Ltac run_submit pg f m Hf Hm :=
  eexists; split; [exact (submit_run pg f m Hf Hm)|];
  rewrite on_submit_run; cbn [snd form formMsg log].

(** A field is falsy when its control is missing or holds only
    whitespace. *)
Lemma falsy_field nm f :
  falsy (field nm f) = true <->
  match List.find (fun c => bool_decide (name c = nm)) f with
  | None => True
  | Some c => trim (value c) = []
  end.
Proof.
  unfold field, value_trim. destruct (List.find _ f) as [c|]; simpl.
  - destruct (trim (value c)); split; congruence.
  - tauto.
Qed.

Lemma validates_true f :
  validates f = true <->
  falsy (field (js "name") f) || falsy (field (js "email") f) ||
    falsy (field (js "message") f) = false /\
  isValidEmail (to_string (field (js "email") f)) = true.
Proof.
  unfold validates.
  destruct (falsy (field (js "name") f)), (falsy (field (js "email") f)),
    (falsy (field (js "message") f)); simpl; intuition congruence.
Qed.

(** C1 (as amended): [isValidEmail] accepts exactly the strings
    [l@d.t] whose three parts are non-empty and free of whitespace and
    ['@'], where the dot is some dot after the ['@'], not necessarily
    the last one: these are the strings of the specification's shape and,
    besides, those of that shape that end in a dot.  ["a@b"], ["a.com"]
    and ["a @b.com"] are rejected; and a submission whose three trimmed
    fields are non-empty and whose email lacks the shape shows the red
    "invalid email" message. *)
Theorem isValidEmail_accepts_shape :
  (forall s : jsstring, isValidEmail s = true <-> email_shape s) /\
  (forall s : jsstring,
      isValidEmail s = true <->
      email_shape_spec s \/ (email_shape s /\ last s = Some 46)) /\
  (isValidEmail (js "a@b") = false /\
   isValidEmail (js "a.com") = false /\
   isValidEmail (js "a @b.com") = false) /\
  (forall (pg : Page) (f : list Control) (m : Element) (e : jsstring),
      contactForm pg = Some f -> formMsgEl pg = Some m ->
      falsy (field (js "name") f) = false ->
      field (js "email") f = Some e -> e <> [] ->
      falsy (field (js "message") f) = false ->
      ~ email_shape e ->
      exists w, submit pg = Some w /\
                shown w = Some (msg_invalid, Some red)).
Proof.
  split; [exact isValidEmail_shape|].
  split; [intros s; rewrite isValidEmail_shape;
          apply email_shape_spec_or_trailing_dot|].
  split; [repeat split; vm_compute; reflexivity|].
  intros pg f m e Hf Hm Hn He Hne Hmsg Hshape.
  run_submit pg f m Hf Hm.
  rewrite Hn, He, Hmsg. change (to_string (Some e)) with e.
  assert (He' : falsy (Some e) = false) by (destruct e; [congruence|reflexivity]).
  rewrite He'; cbn [orb].
  destruct (isValidEmail e) eqn:Hv.
  - now apply isValidEmail_shape in Hv.
  - apply shown_show.
Qed.

(** C2: when a field is missing or empty after trimming, the handler
    shows the red "fill all fields" message and does nothing else: its
    calls are [preventDefault] and that one [showFormMessage], so the
    email is never checked, the success message is never shown, and the
    form is left as it was. *)
Theorem empty_field_shows_fill_message
    (pg : Page) (f : list Control) (m : Element) :
  contactForm pg = Some f -> formMsgEl pg = Some m ->
  falsy (field (js "name") f) = true \/
  falsy (field (js "email") f) = true \/
  falsy (field (js "message") f) = true ->
  exists w, submit pg = Some w /\
    shown w = Some (msg_fill, Some red) /\
    log w = [PreventDefault; ShowFormMessage msg_fill red] /\
    (forall e, ~ In (IsValidEmail e) (log w)) /\
    ~ In (ShowFormMessage msg_success green) (log w) /\
    form w = f.
Proof.
  intros Hf Hm Hempty.
  run_submit pg f m Hf Hm.
  replace (_ || _ || _) with true.
  - cbn [form formMsg log app]. split; [apply shown_show|].
    split; [reflexivity|].
    split; [intros e [H|[H|[]]]; discriminate|].
    split; [intros [H|[H|[]]]; discriminate|reflexivity].
  - symmetry. rewrite !orb_true_iff. tauto.
Qed.

(** What [form.reset()] leaves: the same controls, each holding its
    default value. *)
Lemma reset_controls f :
  map name (map reset_control f) = map name f /\
  map defaultValue (map reset_control f) = map defaultValue f /\
  map value (map reset_control f) = map defaultValue f.
Proof. rewrite !map_map. repeat split; now apply map_ext. Qed.

Lemma reset_cleared_iff f c :
  In c (map reset_control f) -> (value c = [] <-> defaultValue c = []).
Proof. intros Hc. apply in_map_iff in Hc as (c0 & <- & _). reflexivity. Qed.

(** C3 (as amended): when the three trimmed fields are non-empty and the
    email passes the check, the green success message is shown and every
    control of the form is reset to its default value: the controls are
    the same, each holds its default, and so a control is cleared exactly
    when its default is empty, all of them when all defaults are. *)
Theorem valid_submission_succeeds
    (pg : Page) (f : list Control) (m : Element) :
  contactForm pg = Some f -> formMsgEl pg = Some m ->
  falsy (field (js "name") f) = false ->
  falsy (field (js "email") f) = false ->
  falsy (field (js "message") f) = false ->
  isValidEmail (to_string (field (js "email") f)) = true ->
  exists w, submit pg = Some w /\
    shown w = Some (msg_success, Some green) /\
    form w = map reset_control f /\
    map name (form w) = map name f /\
    map defaultValue (form w) = map defaultValue f /\
    map value (form w) = map defaultValue f /\
    Forall (fun c => value c = defaultValue c) (form w) /\
    (forall c, In c (form w) -> (value c = [] <-> defaultValue c = [])) /\
    (Forall (fun c => defaultValue c = []) f ->
     Forall (fun c => value c = []) (form w)).
Proof.
  intros Hf Hm Hn He Hmsg Hv.
  run_submit pg f m Hf Hm.
  rewrite Hn, He, Hmsg, Hv; cbn [orb form formMsg log].
  destruct (reset_controls f) as (Hnames & Hdefs & Hvals).
  split; [apply shown_show|]. split; [reflexivity|].
  split; [exact Hnames|]. split; [exact Hdefs|]. split; [exact Hvals|].
  split; [|split; [apply reset_cleared_iff|]].
  - apply List.Forall_forall. intros c Hc.
    apply in_map_iff in Hc as (c0 & <- & _). reflexivity.
  - intros Hd. apply List.Forall_forall. intros c Hc.
    apply in_map_iff in Hc as (c0 & <- & Hc0).
    rewrite List.Forall_forall in Hd. now apply Hd.
Qed.

(** C10 (as amended): [form.reset()] is called exactly when validation
    succeeds.  On a failed submission the controls keep their values, the
    last call is the red message, and the reset is not among the calls;
    on a successful one the reset is the last call, and it leaves the
    same controls, each holding its default value, so that a control is
    cleared exactly when its default is empty. *)
Theorem fields_reset_only_on_success
    (pg : Page) (f : list Control) (m : Element) :
  contactForm pg = Some f -> formMsgEl pg = Some m ->
  exists w, submit pg = Some w /\
    (validates f = false ->
       form w = f /\ ~ In FormReset (log w) /\
       exists text, last (log w) = Some (ShowFormMessage text red)) /\
    (validates f = true ->
       form w = map reset_control f /\ last (log w) = Some FormReset /\
       map name (form w) = map name f /\
       map defaultValue (form w) = map defaultValue f /\
       map value (form w) = map defaultValue f /\
       (forall c, In c (form w) ->
                  (value c = [] <-> defaultValue c = []))) /\
    (In FormReset (log w) <-> validates f = true).
Proof.
  intros Hf Hm.
  run_submit pg f m Hf Hm.
  destruct (validates f) eqn:Hval.
  - apply validates_true in Hval as [-> ->]. cbn [form log app].
    destruct (reset_controls f) as (Hnames & Hdefs & Hvals).
    split; [discriminate|]. split.
    + intros _. split; [reflexivity|]. split; [reflexivity|].
      split; [exact Hnames|]. split; [exact Hdefs|]. split; [exact Hvals|].
      apply reset_cleared_iff.
    + split; [reflexivity|]. intros _. simpl. auto.
  - assert (Hcases :
      falsy (field (js "name") f) || falsy (field (js "email") f) ||
        falsy (field (js "message") f) = true \/
      (falsy (field (js "name") f) || falsy (field (js "email") f) ||
         falsy (field (js "message") f) = false /\
       isValidEmail (to_string (field (js "email") f)) = false)).
    { destruct (_ || _ || _) eqn:Hor; [now left|right].
      split; [reflexivity|].
      destruct (isValidEmail _) eqn:Hv; [|reflexivity].
      assert (validates f = true) by (apply validates_true; auto).
      congruence. }
    destruct Hcases as [-> | [-> ->]]; cbn [form log app].
    + split; [|split; [discriminate|]].
      * intros _. split; [reflexivity|].
        split; [intros [H|[H|[]]]; discriminate|]. now exists msg_fill.
      * split; [intros [H|[H|[]]]; discriminate|discriminate].
    + split; [|split; [discriminate|]].
      * intros _. split; [reflexivity|].
        split; [intros [H|[H|[H|[]]]]; discriminate|]. now exists msg_invalid.
      * split; [intros [H|[H|[H|[]]]]; discriminate|discriminate].
Qed.

End ContactFormFacts.

(** The counterexample to C1 as the specification words it: ["a@b.c."]
    has nothing after its final dot, and is accepted. *)
Lemma isValidEmail_trailing_dot :
  isValidEmail (js "a@b.c.") = true /\ ~ email_shape_spec (js "a@b.c.").
Proof.
  split; [reflexivity|].
  intros H. apply email_shape_spec_last in H. now apply H.
Qed.

Lemma isValidEmail_accepts_shape_witness :
  exists w,
    ContactForm.submit
      (Examples.contact_form (js "Jo") (js "  a@b ") (js "hi")) = Some w /\
    ContactForm.shown w = Some (ContactForm.msg_invalid, Some ContactForm.red).
Proof.
  apply (proj2 (proj2 (proj2 isValidEmail_accepts_shape))
           (Examples.contact_form (js "Jo") (js "  a@b ") (js "hi"))
           (Examples.controls (js "Jo") (js "  a@b ") (js "hi"))
           Examples.plain_element (js "a@b"));
    try reflexivity.
  - discriminate.
  - intros H. apply isValidEmail_shape in H. discriminate.
Defined.

Lemma empty_field_shows_fill_message_witness :
  exists w,
    ContactForm.submit
      (Examples.contact_form (js "   ") (js "jo@example.com") (js "hi"))
    = Some w /\
    ContactForm.shown w = Some (ContactForm.msg_fill, Some ContactForm.red) /\
    ContactForm.log w =
      [ContactForm.PreventDefault;
       ContactForm.ShowFormMessage ContactForm.msg_fill ContactForm.red] /\
    (forall e, ~ In (ContactForm.IsValidEmail e) (ContactForm.log w)) /\
    ~ In (ContactForm.ShowFormMessage ContactForm.msg_success ContactForm.green)
        (ContactForm.log w) /\
    ContactForm.form w =
      (Examples.controls (js "   ") (js "jo@example.com") (js "hi")).
Proof.
  apply (empty_field_shows_fill_message
           (Examples.contact_form (js "   ") (js "jo@example.com") (js "hi"))
           (Examples.controls (js "   ") (js "jo@example.com") (js "hi"))
           Examples.plain_element);
    try reflexivity.
  left. reflexivity.
Defined.

(** The counterexample to C3 as stated: a valid submission of a form
    whose message box has a default text shows the success message and
    leaves that text in the box. *)
Lemma valid_submission_keeps_default_text :
  exists w,
    ContactForm.submit (ContactForm.mkPage (Some Samples.prefilled)
                          (Some Examples.plain_element)) = Some w /\
    ContactForm.validates Samples.prefilled = true /\
    ContactForm.shown w
    = Some (ContactForm.msg_success, Some ContactForm.green) /\
    map ContactForm.value (ContactForm.form w) = [[]; []; js "Hello!"] /\
    ~ Forall (fun c => ContactForm.value c = []) (ContactForm.form w).
Proof.
  eexists. split; [reflexivity|]. split; [reflexivity|].
  split; [reflexivity|]. split; [reflexivity|].
  intros H. apply Forall_cons in H as [_ H]. apply Forall_cons in H as [_ H].
  apply Forall_cons in H as [H _]. discriminate.
Qed.

Lemma valid_submission_succeeds_witness :
  exists w,
    ContactForm.submit (ContactForm.mkPage (Some Samples.prefilled)
                          (Some Examples.plain_element)) = Some w /\
    ContactForm.shown w
    = Some (ContactForm.msg_success, Some ContactForm.green) /\
    map ContactForm.value (ContactForm.form w)
    = map ContactForm.defaultValue Samples.prefilled.
Proof.
  destruct (valid_submission_succeeds
              (ContactForm.mkPage (Some Samples.prefilled)
                 (Some Examples.plain_element))
              Samples.prefilled Examples.plain_element
              eq_refl eq_refl eq_refl eq_refl eq_refl eq_refl)
    as (w & Hw & Hshown & _ & _ & _ & Hvals & _).
  exists w. split; [exact Hw|]. split; [exact Hshown|exact Hvals].
Defined.

(** The counterexample to C10 as stated: a form submitted as its
    defaults fill it passes validation, the reset runs, and no field is
    cleared. *)
Lemma valid_submission_at_defaults_clears_nothing :
  exists w,
    ContactForm.submit (ContactForm.mkPage (Some Samples.at_defaults)
                          (Some Examples.plain_element)) = Some w /\
    ContactForm.validates Samples.at_defaults = true /\
    In ContactForm.FormReset (ContactForm.log w) /\
    ContactForm.form w = Samples.at_defaults /\
    Forall (fun c => ContactForm.value c <> []) (ContactForm.form w).
Proof.
  eexists. split; [reflexivity|]. split; [reflexivity|].
  split; [simpl; tauto|]. split; [reflexivity|].
  repeat constructor; discriminate.
Qed.

Lemma fields_reset_only_on_success_witness :
  exists w,
    ContactForm.submit
      (Examples.contact_form (js "Jo") (js "a.com") (js "hi")) = Some w /\
    ContactForm.form w = (Examples.controls (js "Jo") (js "a.com") (js "hi")) /\
    ~ In ContactForm.FormReset (ContactForm.log w).
Proof.
  destruct (fields_reset_only_on_success
              (Examples.contact_form (js "Jo") (js "a.com") (js "hi"))
              (Examples.controls (js "Jo") (js "a.com") (js "hi"))
              Examples.plain_element eq_refl eq_refl)
    as (w & Hw & Hfail & _ & _).
  exists w. split; [exact Hw|].
  destruct (Hfail eq_refl) as (Hform & Hreset & _). split; assumption.
Defined.

(** ** Class lists *)

Section ClassListFacts.
Import ClassList.

Lemma contains_elem_of c l : contains c l = true <-> c ∈ l.
Proof. unfold contains. apply bool_decide_eq_true. Qed.

Lemma contains_not_elem_of c l : contains c l = false <-> c ∉ l.
Proof. unfold contains. apply bool_decide_eq_false. Qed.

Lemma elem_of_add c l x : x ∈ add c l <-> x = c \/ x ∈ l.
Proof.
  unfold add. destruct (contains c l) eqn:Hc.
  - apply contains_elem_of in Hc. split; [auto|]. now intros [->|?].
  - rewrite elem_of_app, list_elem_of_singleton. tauto.
Qed.

Lemma contains_add c l : contains c (add c l) = true.
Proof. apply contains_elem_of, elem_of_add. now left. Qed.

Lemma elem_of_remove c l x : x ∈ remove c l <-> x <> c /\ x ∈ l.
Proof. unfold remove. now rewrite list_elem_of_filter. Qed.

Lemma toggle_present c l : snd (toggle c l) = negb (contains c l).
Proof. unfold toggle. now destruct (contains c l). Qed.

Lemma contains_toggle c l :
  contains c (fst (toggle c l)) = negb (contains c l).
Proof.
  unfold toggle. destruct (contains c l) eqn:Hc; simpl.
  - apply contains_not_elem_of. rewrite elem_of_remove. tauto.
  - apply contains_elem_of. rewrite elem_of_app, list_elem_of_singleton. tauto.
Qed.

Lemma elem_of_toggle c l x :
  x ∈ fst (toggle c l) <->
  (if contains c l then x <> c /\ x ∈ l else x ∈ l \/ x = c).
Proof.
  unfold toggle. destruct (contains c l); simpl.
  - apply elem_of_remove.
  - now rewrite elem_of_app, list_elem_of_singleton.
Qed.

(** Toggling a token twice leaves the same set of tokens. *)
Lemma elem_of_toggle_twice c l x :
  x ∈ fst (toggle c (fst (toggle c l))) <-> x ∈ l.
Proof.
  rewrite elem_of_toggle, contains_toggle.
  destruct (contains c l) eqn:Hc; simpl; rewrite elem_of_toggle, Hc.
  - apply contains_elem_of in Hc.
    destruct (decide (x = c)) as [->|Hx]; tauto.
  - apply contains_not_elem_of in Hc.
    split; [tauto|].
    intros Hx. split; [|now left]. now intros ->.
Qed.

End ClassListFacts.

(** ** Dark mode toggle *)

Section ThemeFacts.
Import Theme.

Lemma click_run pg t :
  themeToggle pg = Some t ->
  click pg =
  mkPage (fst (ClassList.toggle dark (body pg)))
    (Some (setAttribute aria_pressed (string_of_bool (negb (has_dark pg)))
             (set_textContent
                (if negb (has_dark pg) then icon_light_mode
                 else icon_dark_mode) t)))
    (<[theme := if negb (has_dark pg) then dark else light]>
       (localStorage pg)).
Proof.
  intros Ht. unfold click. rewrite Ht.
  pose proof (toggle_present dark (body pg)) as Hp.
  destruct (ClassList.toggle dark (body pg)) as [classes isDark].
  simpl in Hp. subst isDark. reflexivity.
Qed.

Lemma has_dark_click pg t :
  themeToggle pg = Some t -> has_dark (click pg) = negb (has_dark pg).
Proof.
  intros Ht. rewrite (click_run pg t Ht). unfold has_dark; simpl.
  apply contains_toggle.
Qed.

Lemma localStorage_click pg t :
  themeToggle pg = Some t ->
  localStorage (click pg) =
  <[theme := if negb (has_dark pg) then dark else light]> (localStorage pg).
Proof. intros Ht. now rewrite (click_run pg t Ht). Qed.

Lemma themeToggle_click pg t :
  themeToggle pg = Some t -> exists t', themeToggle (click pg) = Some t'.
Proof. intros Ht. rewrite (click_run pg t Ht). simpl. eauto. Qed.

Lemma localStorage_click_twice pg t :
  themeToggle pg = Some t ->
  localStorage (click (click pg)) =
  <[theme := if has_dark pg then dark else light]> (localStorage pg).
Proof.
  intros Ht. destruct (themeToggle_click pg t Ht) as [t1 Ht1].
  rewrite (localStorage_click _ _ Ht1), (has_dark_click _ _ Ht),
    (localStorage_click _ _ Ht), negb_involutive.
  apply insert_insert_eq.
Qed.

(** The counterexample to C5 as stated: on a first visit nothing is
    stored under the key, and after two clicks ["light"] is. *)
Lemma toggle_twice_stores_light :
  ~ (has_dark (click (click Examples.first_visit))
     = has_dark Examples.first_visit /\
     localStorage (click (click Examples.first_visit)) !! theme
     = localStorage Examples.first_visit !! theme).
Proof. intros [_ H]. vm_compute in H. discriminate. Qed.

(** C5 (as amended): two clicks bring back the body's classes (the same
    tokens, so the dark class is present exactly if it was) and leave
    under the key the value that names the body's original state,
    ["dark"] or ["light"], other keys untouched.  The store is therefore
    the one before the clicks exactly when the value stored before
    agreed with the body's class, which holds after any earlier click;
    a key that was absent is never absent afterwards. *)
Theorem toggle_twice_restores (pg : Page) (t : Element) :
  themeToggle pg = Some t ->
  (forall c, c ∈ body (click (click pg)) <-> c ∈ body pg) /\
  has_dark (click (click pg)) = has_dark pg /\
  localStorage (click (click pg)) =
    <[theme := if has_dark pg then dark else light]> (localStorage pg) /\
  localStorage (click (click pg)) !! theme
  = Some (if has_dark pg then dark else light) /\
  (forall k, k <> theme ->
             localStorage (click (click pg)) !! k = localStorage pg !! k) /\
  (localStorage pg !! theme = Some (if has_dark pg then dark else light) ->
   localStorage (click (click pg)) = localStorage pg) /\
  (localStorage (click (click pg)) = localStorage pg ->
   localStorage pg !! theme = Some (if has_dark pg then dark else light)) /\
  (localStorage pg !! theme = None ->
   localStorage (click (click pg)) !! theme <> None) /\
  localStorage (click (click (click pg))) = localStorage (click pg).
Proof.
  intros Ht.
  destruct (themeToggle_click pg t Ht) as [t1 Ht1].
  pose proof (localStorage_click_twice pg t Ht) as Hls.
  assert (Hkey : localStorage (click (click pg)) !! theme
                 = Some (if has_dark pg then dark else light))
    by (rewrite Hls; apply lookup_insert_eq).
  split; [|split; [|split; [|split; [|split; [|split; [|split; [|split]]]]]]].
  - intros c. rewrite (click_run _ _ Ht1). cbn [body].
    rewrite (click_run _ _ Ht). cbn [body].
    apply elem_of_toggle_twice.
  - rewrite (has_dark_click _ _ Ht1), (has_dark_click _ _ Ht).
    apply negb_involutive.
  - exact Hls.
  - exact Hkey.
  - intros k Hk. rewrite Hls. now apply lookup_insert_ne.
  - intros Hstored. rewrite Hls. now apply insert_id.
  - intros Hsame. now rewrite <- Hsame.
  - intros _. rewrite Hkey. discriminate.
  - rewrite (localStorage_click_twice _ _ Ht1). apply insert_id.
    rewrite (has_dark_click _ _ Ht), (localStorage_click _ _ Ht).
    apply lookup_insert_eq.
Qed.

Lemma toggle_twice_restores_witness :
  has_dark (click (click Samples.dark_loaded)) = has_dark Samples.dark_loaded /\
  localStorage (click (click Samples.dark_loaded))
  = localStorage Samples.dark_loaded.
Proof.
  destruct (toggle_twice_restores Samples.dark_loaded Examples.plain_element
              eq_refl)
    as (_ & Hdark & _ & _ & _ & Hrestored & _).
  split; [exact Hdark|]. apply Hrestored. reflexivity.
Defined.

(** A body that is dark with nothing stored: two clicks store
    ["dark"]. *)
Lemma toggle_twice_stores_dark :
  localStorage (click (click Samples.dark_unstored)) !! theme = Some dark.
Proof. reflexivity. Qed.

(** The load block when the toggle is on the page. *)
Lemma load_run pg t :
  themeToggle pg = Some t ->
  load pg =
  if bool_decide (localStorage pg !! theme = Some dark) then
    mkPage (ClassList.add dark (body pg))
      (Some (setAttribute aria_pressed (js "true")
               (set_textContent icon_light_mode t)))
      (localStorage pg)
  else
    mkPage (body pg) (Some (setAttribute aria_pressed (js "false") t))
      (localStorage pg).
Proof. intros Ht. unfold load. now rewrite Ht. Qed.

(** C7: at load, a stored ["dark"] puts the dark class on the body, sets
    the toggle's icon to the light-mode glyph and its pressed state to
    ["true"]; any other stored value, or none, sets the pressed state to
    ["false"] and leaves the body's classes and the toggle's icon and
    classes as they were.  The store is only read. *)
Theorem load_applies_saved_theme (pg : Page) (t : Element) :
  themeToggle pg = Some t ->
  (localStorage pg !! theme = Some dark ->
   has_dark (load pg) = true /\
   textContent <$> themeToggle (load pg) = Some icon_light_mode /\
   themeToggle (load pg) ≫= (fun t' => attributes t' !! aria_pressed)
   = Some (js "true")) /\
  (localStorage pg !! theme <> Some dark ->
   themeToggle (load pg) ≫= (fun t' => attributes t' !! aria_pressed)
   = Some (js "false") /\
   body (load pg) = body pg /\
   textContent <$> themeToggle (load pg) = Some (textContent t) /\
   classList <$> themeToggle (load pg) = Some (classList t)) /\
  localStorage (load pg) = localStorage pg.
Proof.
  intros Ht. rewrite (load_run pg t Ht).
  split; [|split].
  - intros Hd. rewrite bool_decide_eq_true_2 by assumption.
    unfold has_dark; simpl. split; [apply contains_add|].
    split; [reflexivity|]. now rewrite lookup_insert_eq.
  - intros Hd. rewrite bool_decide_eq_false_2 by assumption. simpl.
    rewrite lookup_insert_eq. auto.
  - now destruct (bool_decide _).
Qed.

Lemma load_applies_saved_theme_witness :
  has_dark (load Examples.dark_visit) = true /\
  textContent <$> themeToggle (load Examples.dark_visit)
  = Some icon_light_mode /\
  themeToggle (load Examples.dark_visit)
    ≫= (fun t' => attributes t' !! aria_pressed)
  = Some (js "true").
Proof.
  apply (proj1 (load_applies_saved_theme Examples.dark_visit
                  Examples.plain_element eq_refl)).
  reflexivity.
Defined.

End ThemeFacts.

(** ** Scroll reveal *)

Section RevealFacts.
Import Reveal.

Lemma is_active_on_entry s e el :
  is_active (on_entry s e) el =
  is_active s el ||
  (isIntersecting e && bool_decide (target e = el) &&
   bool_decide (is_Some (document s !! el))).
Proof.
  unfold on_entry, is_active.
  destruct (isIntersecting e); cbn [document andb]; [|now rewrite orb_false_r].
  destruct (decide (target e = el)) as [->|Hne].
  - rewrite lookup_alter_eq, (bool_decide_eq_true_2 (el = el)) by reflexivity.
    destruct (document s !! el) as [x|] eqn:Hx; cbn [fmap option_fmap option_map andb].
    + rewrite (bool_decide_eq_true_2 (is_Some (Some x))) by eauto.
      unfold classList_add, set_classList; cbn [classList].
      now rewrite contains_add, orb_true_r.
    + rewrite (bool_decide_eq_false_2 (is_Some None)) by (intros [? ?]; discriminate).
      reflexivity.
  - rewrite lookup_alter_ne, (bool_decide_eq_false_2 (target e = el)) by assumption.
    cbn [andb]. now rewrite orb_false_r.
Qed.

(** An active element stays active. *)
Lemma is_active_mono s e el :
  is_active s el = true -> is_active (on_entry s e) el = true.
Proof. intros Ha. rewrite is_active_on_entry, Ha. reflexivity. Qed.

Lemma observed_on_entry s e :
  observed (on_entry s e) =
  if isIntersecting e then observed s ∖ {[target e]} else observed s.
Proof. unfold on_entry. now destruct (isIntersecting e). Qed.

Lemma observed_on_entry_subseteq s e : observed (on_entry s e) ⊆ observed s.
Proof.
  rewrite observed_on_entry.
  destruct (isIntersecting e); [apply subseteq_difference_l|]; reflexivity.
Qed.

Lemma observed_callback_subseteq es : forall s,
  observed (callback es s) ⊆ observed s.
Proof.
  unfold callback. induction es as [|e es IH]; intros s; simpl; [done|].
  etrans; [apply IH|apply observed_on_entry_subseteq].
Qed.

Lemma dom_document_on_entry s e :
  dom (document (on_entry s e)) = dom (document s).
Proof.
  unfold on_entry. destruct (isIntersecting e); simpl; [|done].
  apply dom_alter_L.
Qed.

Lemma notify_concat batches : forall s,
  notify batches s = callback (concat batches) s.
Proof.
  unfold notify, callback.
  induction batches as [|b bs IH]; intros s; simpl; [done|].
  now rewrite IH, foldl_app.
Qed.

Lemma last_trace es : forall s, last (trace s es) = Some (callback es s).
Proof.
  unfold callback. induction es as [|e es IH]; intros s; simpl; [done|].
  rewrite <- IH. now destruct es.
Qed.

Lemma activations_step el s s' es :
  activations el (s :: trace s' es) =
  ((if negb (is_active s el) && is_active s' el then 1 else 0)
   + activations el (trace s' es))%nat.
Proof. destruct es; reflexivity. Qed.

Lemma deactivations_step el s s' es :
  deactivations el (s :: trace s' es) =
  ((if is_active s el && negb (is_active s' el) then 1 else 0)
   + deactivations el (trace s' es))%nat.
Proof. destruct es; reflexivity. Qed.

Lemma trace_cons s e es : trace s (e :: es) = s :: trace (on_entry s e) es.
Proof. reflexivity. Qed.

(** No step of a trace takes an element from active to inactive. *)
Lemma deactivations_trace el es : forall s,
  deactivations el (trace s es) = 0%nat.
Proof.
  induction es as [|e es IH]; intros s; [reflexivity|].
  rewrite trace_cons, deactivations_step, IH.
  destruct (is_active s el) eqn:Ha; [|reflexivity].
  now rewrite (is_active_mono s e el Ha).
Qed.

Lemma activations_trace_active el es : forall s,
  is_active s el = true -> activations el (trace s es) = 0%nat.
Proof.
  induction es as [|e es IH]; intros s Ha; [reflexivity|].
  rewrite trace_cons, activations_step, Ha.
  apply IH, is_active_mono, Ha.
Qed.

(** At most one step of a trace takes an element from inactive to
    active. *)
Lemma activations_trace el es : forall s,
  (activations el (trace s es) <= 1)%nat.
Proof.
  induction es as [|e es IH]; intros s; [simpl; lia|].
  rewrite trace_cons, activations_step.
  destruct (is_active (on_entry s e) el) eqn:Ha'.
  - rewrite (activations_trace_active el es _ Ha').
    destruct (negb (is_active s el)); simpl; lia.
  - rewrite andb_false_r. apply IH.
Qed.

Lemma dom_document_callback es : forall s,
  dom (document (callback es s)) = dom (document s).
Proof.
  unfold callback. induction es as [|e es IH]; intros s; simpl; [done|].
  now rewrite IH, dom_document_on_entry.
Qed.

Lemma callback_app es1 es2 s :
  callback (es1 ++ es2) s = callback es2 (callback es1 s).
Proof. unfold callback. apply foldl_app. Qed.

(** C4: while the entries of any sequence of notifications are handled
    one after the other, an element goes from inactive to active at most
    once and never from active to inactive.  An inactive element becomes
    active exactly at an entry that reports it intersecting (which the
    browser does, for this observer, once a tenth of it is visible); at
    that entry it is taken off the observer's list, and it is still off
    the list when all notifications have been handled. *)
Theorem reveal_activates_once
    (s : State) (batches : list (list Entry)) (el : nat) :
  last (trace s (concat batches)) = Some (notify batches s) /\
  (activations el (trace s (concat batches)) <= 1)%nat /\
  deactivations el (trace s (concat batches)) = 0%nat /\
  (forall before e after,
      concat batches = before ++ e :: after ->
      is_active (callback before s) el = false ->
      (is_active (on_entry (callback before s) e) el = true <->
       isIntersecting e = true /\ target e = el /\
       el ∈ dom (document s)) /\
      (is_active (on_entry (callback before s) e) el = true ->
       (el ∉ observed (on_entry (callback before s) e)) /\
       (el ∉ observed (notify batches s)))).
Proof.
  split; [rewrite notify_concat; apply last_trace|].
  split; [apply activations_trace|].
  split; [apply deactivations_trace|].
  intros before e after Hsplit Hinactive.
  assert (Hiff : is_active (on_entry (callback before s) e) el = true <->
                 isIntersecting e = true /\ target e = el /\
                 el ∈ dom (document s)).
  { rewrite is_active_on_entry, Hinactive, orb_false_l, !andb_true_iff,
      !bool_decide_eq_true, <- elem_of_dom, dom_document_callback.
    tauto. }
  split; [exact Hiff|].
  intros Hact. apply Hiff in Hact as (Hint & Htgt & _).
  assert (Hoff : el ∉ observed (on_entry (callback before s) e)).
  { rewrite observed_on_entry, Hint, Htgt.
    apply not_elem_of_difference. right. now apply elem_of_singleton. }
  split; [exact Hoff|].
  rewrite notify_concat, Hsplit, callback_app.
  change (callback (e :: after) (callback before s))
    with (callback after (on_entry (callback before s) e)).
  intros Hin. apply Hoff.
  now apply (observed_callback_subseteq after).
Qed.

Lemma reveal_activates_once_witness :
  (0%nat ∉ observed
     (on_entry (callback [mkEntry false 0] Examples.reveal_start)
        (mkEntry true 0))) /\
  (0%nat ∉ observed (notify Examples.reveal_batches Examples.reveal_start)).
Proof.
  destruct (reveal_activates_once Examples.reveal_start
              Examples.reveal_batches 0) as (_ & _ & _ & H).
  destruct (H [mkEntry false 0] (mkEntry true 0)
              [mkEntry false 0; mkEntry true 0] eq_refl eq_refl)
    as [Hiff Hoff].
  apply Hoff, Hiff. split; [reflexivity|]. split; [reflexivity|].
  apply elem_of_dom. eexists. reflexivity.
Defined.

(** At load the observer watches exactly the reveal-flagged elements. *)
Lemma init_observes_reveal_elements doc el :
  el ∈ observed (init true doc) <->
  exists x, doc !! el = Some x /\ reveal ∈ classList x.
Proof.
  unfold init. case_bool_decide as Hsize; cbn [observed].
  - unfold revealElements. rewrite elem_of_dom. unfold is_Some.
    setoid_rewrite map_lookup_filter_Some. naive_solver.
  - assert (Hempty : revealElements doc ≡ ∅).
    { apply size_empty_iff. lia. }
    split; [intros Hin; now apply not_elem_of_empty in Hin|].
    intros (x & Hx & Hr).
    assert (Hin : el ∈ revealElements doc).
    { unfold revealElements. rewrite elem_of_dom.
      exists x. apply map_lookup_filter_Some. auto. }
    apply Hempty in Hin. now apply not_elem_of_empty in Hin.
Qed.

End RevealFacts.

(** ** Back to top button *)

Section BackToTopFacts.
Import BackToTop.

(** Comparing binary64 numbers the other way round gives the opposite
    answer. *)
Lemma SFcompare_swap a b : SFcompare b a = CompOpp <$> SFcompare a b.
Proof.
  destruct a as [sa|sa| |sa ma ea], b as [sb|sb| |sb mb eb]; simpl;
    try reflexivity;
    try (destruct sa; reflexivity);
    try (destruct sb; reflexivity);
    try (destruct sa, sb; reflexivity).
  f_equal. rewrite (Z.compare_antisym ea eb).
  destruct sa, sb; simpl; try reflexivity.
  - destruct (ea ?= eb)%Z; simpl; try reflexivity.
    f_equal. exact (Pos.compare_antisym ma mb).
  - destruct (ea ?= eb)%Z; simpl; try reflexivity.
    exact (Pos.compare_antisym ma mb).
Qed.

Lemma float_leb_not_gt x y :
  (x <=? y)%float = true -> (y <? x)%float = false.
Proof.
  rewrite leb_spec, ltb_spec. unfold SFleb, SFltb.
  rewrite (SFcompare_swap (Prim2SF x) (Prim2SF y)).
  destruct (SFcompare (Prim2SF x) (Prim2SF y)) as [[]|]; simpl; congruence.
Qed.

Lemma displayed_on_scroll w b :
  backToTopBtn w = Some b ->
  displayed (on_scroll w) =
  Some (if (300 <? scrollY w)%float then js "block" else js "none").
Proof.
  intros Hb. unfold displayed, on_scroll. rewrite Hb. simpl.
  apply lookup_insert_eq.
Qed.

(** C8: after a scroll event the button's display is ["block"] exactly
    when the offset is above 300 and ["none"] otherwise: ["none"] for any
    offset of 300 or less, ["block"] at 301.  It depends on the offset
    alone, not on the button's earlier state. *)
Theorem back_to_top_shown_above_300 (w : Window) (b : Element) :
  backToTopBtn w = Some b ->
  (displayed (on_scroll w) = Some (js "block")
   <-> (300 <? scrollY w)%float = true) /\
  (displayed (on_scroll w) = Some (js "none")
   <-> (300 <? scrollY w)%float = false) /\
  ((scrollY w <=? 300)%float = true ->
   displayed (on_scroll w) = Some (js "none")) /\
  (scrollY w = 301%float -> displayed (on_scroll w) = Some (js "block")) /\
  (forall b' : Element,
      displayed (on_scroll (mkWindow (scrollY w) (Some b')))
      = displayed (on_scroll w)).
Proof.
  intros Hb. rewrite (displayed_on_scroll w b Hb).
  split; [|split; [|split; [|split]]].
  - destruct (300 <? scrollY w)%float; split; solve [reflexivity|discriminate].
  - destruct (300 <? scrollY w)%float; split; solve [reflexivity|discriminate].
  - intros Hle. now rewrite (float_leb_not_gt _ _ Hle).
  - intros ->. reflexivity.
  - intros b'.
    exact (displayed_on_scroll (mkWindow (scrollY w) (Some b')) b' eq_refl).
Qed.

Lemma back_to_top_shown_above_300_witness :
  displayed (on_scroll Examples.scrolled_301) = Some (js "block") /\
  displayed (on_scroll (mkWindow 300%float (Some Examples.plain_element)))
  = Some (js "none").
Proof.
  split.
  - exact (proj1 (proj2 (proj2 (proj2
             (back_to_top_shown_above_300 Examples.scrolled_301
                Examples.plain_element eq_refl)))) eq_refl).
  - exact (proj1 (proj2 (proj2
             (back_to_top_shown_above_300
                (mkWindow 300%float (Some Examples.plain_element))
                Examples.plain_element eq_refl))) eq_refl).
Defined.

End BackToTopFacts.

(** ** Word by word text reveal *)

Section WordsFacts.
Import Words.

(** *** Trimming *)

Lemma starts_ws_drop_ws s : starts_ws (drop_ws s) = false.
Proof.
  induction s as [|c s IH]; simpl; [reflexivity|].
  destruct (is_ws c) eqn:Hc; [exact IH|]. simpl. exact Hc.
Qed.

Lemma ends_ws_snoc s c : ends_ws (s ++ [c]) = is_ws c.
Proof.
  induction s as [|c' s IH]; simpl; [reflexivity|].
  destruct (s ++ [c]) eqn:Hs; [|exact IH].
  now destruct s.
Qed.

Lemma ends_ws_rev s : ends_ws (rev s) = starts_ws s.
Proof. destruct s as [|c s]; simpl; [reflexivity|]. apply ends_ws_snoc. Qed.

Lemma starts_ws_rev s : starts_ws (rev s) = ends_ws s.
Proof. now rewrite <- ends_ws_rev, rev_involutive. Qed.

Lemma ends_ws_cons c s : s <> [] -> ends_ws (c :: s) = ends_ws s.
Proof. destruct s; [congruence|reflexivity]. Qed.

Lemma ends_ws_drop_ws s : ends_ws (drop_ws s) = true -> ends_ws s = true.
Proof.
  induction s as [|c s IH]; simpl drop_ws; [auto|].
  destruct (is_ws c); [|auto].
  intros H. specialize (IH H).
  rewrite ends_ws_cons; [exact IH|]. now intros ->.
Qed.

Lemma starts_ws_trim s : starts_ws (trim s) = false.
Proof.
  unfold trim. rewrite starts_ws_rev.
  destruct (ends_ws (drop_ws (rev (drop_ws s)))) eqn:H; [|reflexivity].
  apply ends_ws_drop_ws in H.
  now rewrite ends_ws_rev, starts_ws_drop_ws in H.
Qed.

Lemma ends_ws_trim s : ends_ws (trim s) = false.
Proof. unfold trim. rewrite ends_ws_rev. apply starts_ws_drop_ws. Qed.

(** *** Splitting *)

Lemma split_ws_no_ws s : Forall (fun w => no_ws w = true) (split_ws s).
Proof.
  induction s as [|c s IH]; simpl.
  - now repeat constructor.
  - destruct (is_ws c) eqn:Hc.
    + destruct (starts_ws s); [exact IH|]. now constructor.
    + destruct (split_ws s) as [|w ws]; [now repeat (constructor; simpl; rewrite ?Hc)|].
      apply Forall_cons in IH as [Hw Hws].
      constructor; [|exact Hws]. unfold no_ws; simpl. rewrite Hc. exact Hw.
Qed.

Lemma split_ws_head s :
  s <> [] -> starts_ws s = false ->
  exists c w ws, split_ws s = (c :: w) :: ws.
Proof.
  destruct s as [|c s]; [congruence|]. simpl. intros _ ->.
  destruct (split_ws s) as [|w ws]; eauto.
Qed.

Lemma split_ws_tail s :
  ends_ws s = false -> Forall (fun w => w <> []) (tail (split_ws s)).
Proof.
  induction s as [|c s IH]; intros Hend; [constructor|].
  destruct s as [|c' s'].
  - simpl in *. rewrite Hend. constructor.
  - rewrite ends_ws_cons in Hend by discriminate.
    specialize (IH Hend).
    change (split_ws (c :: c' :: s'))
      with (if is_ws c
            then if starts_ws (c' :: s') then split_ws (c' :: s')
                 else [] :: split_ws (c' :: s')
            else match split_ws (c' :: s') with
                 | w :: ws => (c :: w) :: ws
                 | [] => [[c]]
                 end).
    destruct (is_ws c).
    + destruct (starts_ws (c' :: s')) eqn:Hst; [exact IH|].
      destruct (split_ws_head (c' :: s')) as (x & w & ws & Heq);
        [discriminate|exact Hst|].
      rewrite Heq in *. simpl in *. constructor; [discriminate|exact IH].
    + destruct (split_ws (c' :: s')) as [|w ws]; [constructor|exact IH].
Qed.

(** The words of a trimmed text: none contains whitespace; none is empty
    unless the text is, in which case there is the one empty word. *)
Lemma split_ws_trim s :
  Forall (fun w => no_ws w = true) (split_ws (trim s)) /\
  (trim s <> [] -> Forall (fun w => w <> []) (split_ws (trim s))) /\
  (trim s = [] -> split_ws (trim s) = [[]]).
Proof.
  split; [apply split_ws_no_ws|]. split.
  - intros Hne.
    destruct (split_ws_head (trim s) Hne (starts_ws_trim s))
      as (c & w & ws & Heq).
    pose proof (split_ws_tail (trim s) (ends_ws_trim s)) as Ht.
    rewrite Heq in *. simpl in Ht. constructor; [discriminate|exact Ht].
  - intros ->. reflexivity.
Qed.

(** *** Rebuilding the element *)

Lemma append_words_imap words : forall index children,
  append_words index words children =
  children ++ imap (fun k => word_span (index + k)) words.
Proof.
  induction words as [|w ws IH]; intros index children; simpl.
  - now rewrite app_nil_r.
  - rewrite IH, <- app_assoc. simpl. rewrite Nat.add_0_r.
    do 2 f_equal. apply imap_ext. intros k x _. simpl.
    f_equal. lia.
Qed.

Lemma text_of_word_span index word : text_of (word_span index word) = word.
Proof. destruct word; simpl; [reflexivity|]. now rewrite app_nil_r. Qed.

Lemma textContent_app c1 c2 :
  textContent (c1 ++ c2) = textContent c1 ++ textContent c2.
Proof. unfold textContent. now rewrite map_app, concat_app. Qed.

Lemma textContent_append_words words : forall index children,
  textContent (append_words index words children) =
  textContent children ++ concat words.
Proof.
  induction words as [|w ws IH]; intros index children; simpl.
  - now rewrite app_nil_r.
  - rewrite IH, textContent_app, <- app_assoc. f_equal.
    change (textContent [word_span index w])
      with (text_of (word_span index w) ++ []).
    now rewrite text_of_word_span, app_nil_r.
Qed.

(** *** Words *)

Lemma split_ws_starts_ws s :
  starts_ws s = true -> exists ws, split_ws s = [] :: ws.
Proof.
  induction s as [|c s IH]; [discriminate|]. simpl. intros Hc. rewrite Hc.
  destruct (starts_ws s) eqn:Hs; [now apply IH|eauto].
Qed.

(** The words of a text are the non-empty pieces of its split. *)
Lemma filter_split_ws s : List.filter nonempty (split_ws s) = words_of s.
Proof.
  induction s as [|c s IH]; [reflexivity|].
  cbn [split_ws words_of]. destruct (is_ws c) eqn:Hc.
  - destruct (starts_ws s); [exact IH|]. simpl. exact IH.
  - destruct s as [|c' s'].
    + reflexivity.
    + unfold starts_word. destruct (is_ws c') eqn:Hc'; cbn [negb].
      * destruct (split_ws_starts_ws (c' :: s')) as [ws Hws]; [exact Hc'|].
        rewrite Hws in *. simpl in *. now rewrite IH.
      * destruct (split_ws_head (c' :: s')) as (x & w & ws & Hws);
          [discriminate|exact Hc'|].
        rewrite Hws in *. simpl in *. now rewrite <- IH.
Qed.

Lemma filter_nonempty_all l :
  Forall (fun w : jsstring => w <> []) l -> List.filter nonempty l = l.
Proof.
  induction 1 as [|w l Hw _ IH]; [reflexivity|]. simpl.
  destruct w; [congruence|]. simpl. now rewrite IH.
Qed.

Lemma words_of_ws p : forallb is_ws p = true -> words_of p = [].
Proof.
  induction p as [|c p IH]; [reflexivity|]. simpl. intros H.
  apply andb_true_iff in H as [Hc Hp]. rewrite Hc. now apply IH.
Qed.

Lemma words_of_drop_ws s : words_of (drop_ws s) = words_of s.
Proof.
  induction s as [|c s IH]; [reflexivity|]. simpl.
  destruct (is_ws c) eqn:Hc; [exact IH|]. simpl. now rewrite Hc.
Qed.

Lemma words_of_app_ws p : forallb is_ws p = true ->
  forall x, words_of (x ++ p) = words_of x.
Proof.
  intros Hp. induction x as [|c x IH]; [now apply words_of_ws|].
  simpl. rewrite IH. destruct (is_ws c); [reflexivity|].
  replace (starts_word (x ++ p)) with (starts_word x); [reflexivity|].
  destruct x; [|reflexivity]. simpl.
  destruct p as [|c' p]; [reflexivity|]. simpl in *.
  apply andb_true_iff in Hp as [-> _]. reflexivity.
Qed.

Lemma drop_ws_prefix s :
  exists pre, s = pre ++ drop_ws s /\ forallb is_ws pre = true.
Proof.
  induction s as [|c s (pre & Hs & Hpre)]; [now exists []|]. simpl.
  destruct (is_ws c) eqn:Hc.
  - exists (c :: pre). simpl. rewrite Hc, Hpre. split; [now f_equal|reflexivity].
  - now exists [].
Qed.

(** Trimming a text does not change its words. *)
Lemma words_of_trim s : words_of (trim s) = words_of s.
Proof.
  rewrite <- (words_of_drop_ws s). unfold trim.
  destruct (drop_ws_prefix (rev (drop_ws s))) as (pre & Hrev & Hpre).
  assert (Hu : drop_ws s = rev (drop_ws (rev (drop_ws s))) ++ rev pre).
  { rewrite <- rev_app_distr, <- Hrev. symmetry. apply rev_involutive. }
  rewrite Hu at 2. symmetry. apply words_of_app_ws.
  apply forallb_forall. intros c Hc. apply in_rev in Hc.
  rewrite forallb_forall in Hpre. now apply Hpre.
Qed.

(** For a text that has a word, the script's split of the trimmed text
    yields exactly its words. *)
Lemma split_ws_trim_words s :
  words_of s <> [] -> split_ws (trim s) = words_of s.
Proof.
  intros Hw. rewrite <- words_of_trim, <- filter_split_ws.
  symmetry. apply filter_nonempty_all.
  apply (split_ws_trim s). intros Hnil.
  apply Hw. rewrite <- words_of_trim, Hnil. reflexivity.
Qed.

Lemma animate_imap children :
  animate children = imap word_span (split_ws (trim (textContent children))).
Proof. unfold animate. rewrite append_words_imap. reflexivity. Qed.

(** C9 (as amended): for an element whose text has at least one word
    (a maximal run of characters that are not whitespace), the trimmed
    text is split on runs of whitespace into exactly its words, and the
    element's children become exactly one [span] of class [word] per
    word, in order: the span at position [i] holds word [i] as its only
    text, has right margin [0.4rem] and animation delay [i * 0.1]
    seconds, the product of the number [i] and the number [0.1] in
    binary64 arithmetic (0 for the first word, and over the first four
    thousand positions each delay greater than the one before).  Nothing
    of the original survives but the words: the new text is their
    concatenation. *)
Theorem animate_one_span_per_word (children : list Node) :
  words_of (textContent children) <> [] ->
  split_ws (trim (textContent children)) = words_of (textContent children) /\
  length (animate children) = length (words_of (textContent children)) /\
  (forall (i : nat) (word : jsstring),
      words_of (textContent children) !! i = Some word ->
      word <> [] /\ no_ws word = true /\
      animate children !! i =
      Some (ElementNode (js "span") (js "word")
              (mkStyle (Some (js "0.4rem"))
                 (Some (PrimFloat.of_uint63 (Uint63.of_Z (Z.of_nat i))
                        * 0.1)%float))
              [TextNode word])) /\
  (PrimFloat.of_uint63 (Uint63.of_Z (Z.of_nat 0)) * 0.1)%float = 0%float /\
  (forall i : nat, (i < 4000)%nat ->
      (PrimFloat.of_uint63 (Uint63.of_Z (Z.of_nat i)) * 0.1
       <? PrimFloat.of_uint63 (Uint63.of_Z (Z.of_nat (S i))) * 0.1)%float
      = true) /\
  textContent (animate children)
  = concat (words_of (textContent children)).
Proof.
  intros Hw. pose proof (split_ws_trim_words _ Hw) as Hsplit.
  assert (Hne : trim (textContent children) <> []).
  { intros Hnil. apply Hw. now rewrite <- words_of_trim, Hnil. }
  destruct (split_ws_trim (textContent children)) as (Hnows & Hnonempty & _).
  specialize (Hnonempty Hne). rewrite Hsplit in *.
  split; [reflexivity|].
  split; [rewrite animate_imap, Hsplit; apply length_imap|].
  split.
  { intros i word Hi.
    assert (Hin : In word (words_of (textContent children)))
      by (apply list_elem_of_In, list_elem_of_lookup; eauto).
    rewrite List.Forall_forall in Hnows, Hnonempty.
    split; [now apply Hnonempty|]. split; [now apply Hnows|].
    rewrite animate_imap, Hsplit, list_lookup_imap, Hi. simpl.
    unfold word_span, number_of_index.
    destruct word as [|c word]; [now apply Hnonempty in Hin|reflexivity]. }
  split; [reflexivity|].
  split.
  { assert (Hall : forallb
              (fun i => (PrimFloat.of_uint63 (Uint63.of_Z (Z.of_nat i)) * 0.1
                         <? PrimFloat.of_uint63 (Uint63.of_Z (Z.of_nat (S i)))
                            * 0.1)%float)
              (seq 0 4000) = true) by (vm_compute; reflexivity).
    rewrite forallb_forall in Hall. intros i Hi. apply Hall.
    apply in_seq. lia. }
  unfold animate. rewrite textContent_append_words, Hsplit. reflexivity.
Qed.

Lemma animate_one_span_per_word_witness :
  animate Examples.heading =
  [ElementNode (js "span") (js "word")
     (mkStyle (Some (js "0.4rem")) (Some 0%float)) [TextNode (js "Hello")];
   ElementNode (js "span") (js "word")
     (mkStyle (Some (js "0.4rem")) (Some 0.1%float)) [TextNode (js "wide")];
   ElementNode (js "span") (js "word")
     (mkStyle (Some (js "0.4rem")) (Some 0.2%float)) [TextNode (js "world")]].
Proof.
  assert (Hw : words_of (textContent Examples.heading) <> []) by discriminate.
  destruct (animate_one_span_per_word Examples.heading Hw)
    as (_ & Hlen & Hspan & _).
  pose proof (Hspan 0%nat (js "Hello") eq_refl) as (_ & _ & H0).
  pose proof (Hspan 1%nat (js "wide") eq_refl) as (_ & _ & H1).
  pose proof (Hspan 2%nat (js "world") eq_refl) as (_ & _ & H2).
  destruct (animate Examples.heading) as [|n0 [|n1 [|n2 [|n3 rest]]]];
    try discriminate.
  simpl in H0, H1, H2.
  injection H0 as ->. injection H1 as ->. injection H2 as ->.
  reflexivity.
Defined.

(** The counterexample to C9 as stated: an element that holds only
    blanks has no word, and is rebuilt with one span, an empty one. *)
Lemma animate_blank_leaves_a_span :
  words_of (textContent Samples.blank_heading) = [] /\
  animate Samples.blank_heading =
  [ElementNode (js "span") (js "word")
     (mkStyle (Some (js "0.4rem")) (Some 0%float)) []].
Proof. split; reflexivity. Qed.

End WordsFacts.

(** ** Skill bars *)

Section SkillsFacts.
Import Skills.

(** An intersecting skill item without a [.bar span] makes the callback
    throw: [bar] is [null] and [bar.dataset] is read. *)
Lemma on_entry_without_bar index e s sk :
  isIntersecting e = true ->
  document s !! target e = Some sk -> bar sk = None ->
  on_entry index e s = TypeError s.
Proof.
  intros Hi Hsk Hbar. unfold on_entry. rewrite Hi, Hsk. simpl.
  now rewrite Hbar.
Qed.

(** Entries that do not intersect are skipped. *)
Lemma on_entry_skipped index e s :
  isIntersecting e = false -> on_entry index e s = Completed s.
Proof. intros Hi. unfold on_entry. now rewrite Hi. Qed.

Lemma document_on_entry index e s s' :
  on_entry index e s = Completed s' -> document s' = document s.
Proof.
  unfold on_entry. destruct (negb (isIntersecting e)); [now intros [= <-]|].
  destruct (document s !! target e ≫= bar); [|discriminate].
  now intros [= <-].
Qed.

(** When every intersecting entry's item has its bar, the callback runs
    to its end. *)
Lemma callback_from_completes entries : forall index s,
  Forall (fun e => isIntersecting e = true ->
                   exists b, document s !! target e ≫= bar = Some b) entries ->
  exists s', callback_from index entries s = Completed s'.
Proof.
  induction entries as [|e es IH]; intros index s Hall; simpl; [eauto|].
  apply Forall_cons in Hall as [He Hes].
  destruct (on_entry index e s) as [s1|s1] eqn:Hon.
  - apply IH. rewrite (document_on_entry _ _ _ _ Hon). exact Hes.
  - exfalso. unfold on_entry in Hon.
    destruct (isIntersecting e); simpl in Hon; [|discriminate].
    destruct (He eq_refl) as [b Hb]. rewrite Hb in Hon. discriminate.
Qed.

(** The other components check for their elements first: without the
    element, the theme block and its click listener, the submit listener
    and the scroll listener do nothing. *)
Lemma missing_elements_disable :
  (forall pg, Theme.themeToggle pg = None ->
              Theme.load pg = pg /\ Theme.click pg = pg) /\
  (forall pg, ContactForm.contactForm pg = None \/
              ContactForm.formMsgEl pg = None ->
              ContactForm.submit pg = None) /\
  (forall w, BackToTop.backToTopBtn w = None -> BackToTop.on_scroll w = w).
Proof.
  split; [|split].
  - intros pg H. unfold Theme.load, Theme.click. now rewrite H.
  - intros pg [H|H]; unfold ContactForm.submit; rewrite H;
      [reflexivity|now destruct (ContactForm.contactForm pg)].
  - intros w H. unfold BackToTop.on_scroll. now rewrite H.
Qed.

(** C6, at the failing input: one skill item without a [.bar span]
    comes into view, and the observer callback throws instead of
    completing. *)
Theorem skill_without_bar_throws :
  callback [mkEntry true 0] Examples.skills_without_bar
  = TypeError Examples.skills_without_bar.
Proof.
  unfold callback, callback_from.
  rewrite (on_entry_without_bar 0 (mkEntry true 0) Examples.skills_without_bar
             (mkSkill [js "skill"] None)); reflexivity.
Qed.

End SkillsFacts.

(** ** Mobile menu toggle *)

Section NavFacts.
Import Nav.

Lemma contains_remove c l : ClassList.contains c (ClassList.remove c l) = false.
Proof. apply contains_not_elem_of. rewrite elem_of_remove. tauto. Qed.

Lemma on_toggle_click_run pg t n :
  navToggle pg = Some t -> nav pg = Some n ->
  on_toggle_click pg =
  mkPage (Some (setAttribute aria_expanded
                  (string_of_bool (negb (ClassList.contains show (classList n))))
                  t))
    (Some (set_classList (fst (ClassList.toggle show (classList n))) n)).
Proof.
  intros Ht Hn. unfold on_toggle_click. rewrite Ht, Hn.
  pose proof (toggle_present show (classList n)) as Hp.
  destruct (ClassList.toggle show (classList n)) as [classes isOpen].
  simpl in Hp. now subst isOpen.
Qed.

Lemma installed_elements pg :
  installed pg -> exists t n, navToggle pg = Some t /\ nav pg = Some n.
Proof. intros [[t Ht] [n Hn]]. eauto. Qed.

Lemma close_closed t n :
  is_open (close t n) = false /\ expanded (close t n) = Some (js "false") /\
  installed (close t n).
Proof.
  unfold is_open, expanded, installed, close; simpl.
  rewrite contains_remove, lookup_insert_eq. eauto.
Qed.

Lemma toggle_click_state pg :
  installed pg ->
  is_open (on_toggle_click pg) = negb (is_open pg) /\
  expanded (on_toggle_click pg) = Some (string_of_bool (negb (is_open pg))) /\
  installed (on_toggle_click pg).
Proof.
  intros Hi. destruct (installed_elements pg Hi) as (t & n & Ht & Hn).
  rewrite (on_toggle_click_run pg t n Ht Hn).
  unfold is_open, expanded, installed; simpl.
  rewrite Hn, contains_toggle, lookup_insert_eq. eauto.
Qed.

Lemma link_click_state pg :
  installed pg ->
  is_open (on_link_click pg) = false /\
  expanded (on_link_click pg) = Some (js "false") /\
  installed (on_link_click pg).
Proof.
  intros Hi. destruct (installed_elements pg Hi) as (t & n & Ht & Hn).
  unfold on_link_click. rewrite Ht, Hn. apply close_closed.
Qed.

(** The document's listener closes an open menu when the click is
    outside both elements, and otherwise leaves the page alone. *)
Lemma document_click_state e pg :
  installed pg ->
  (is_open pg && negb (in_nav e) && negb (in_toggle e) = true ->
   is_open (on_document_click e pg) = false /\
   expanded (on_document_click e pg) = Some (js "false")) /\
  (is_open pg && negb (in_nav e) && negb (in_toggle e) = false ->
   on_document_click e pg = pg) /\
  installed (on_document_click e pg).
Proof.
  intros Hi. destruct (installed_elements pg Hi) as (t & n & Ht & Hn).
  unfold on_document_click, is_open. rewrite Ht, Hn.
  destruct (_ && _ && _).
  - pose proof (close_closed t n) as (Ho & He & Hc).
    unfold is_open in Ho. split; [auto|]. split; [discriminate|exact Hc].
  - split; [discriminate|]. split; [reflexivity|exact Hi].
Qed.

Lemma run_state pg l :
  installed pg -> in_sync (run pg l) /\ installed (run pg l).
Proof.
  intros Hi. unfold in_sync. destruct l; simpl.
  - destruct (toggle_click_state pg Hi) as (-> & -> & Hc). auto.
  - destruct (link_click_state pg Hi) as (-> & -> & Hc). auto.
Qed.

Lemma foldl_run_state ls : forall pg,
  installed pg -> in_sync pg \/ ls <> [] ->
  in_sync (foldl run pg ls) /\ installed (foldl run pg ls).
Proof.
  induction ls as [|l ls IH] using rev_ind; intros pg Hi Hs.
  - simpl. destruct Hs as [Hs|Hs]; [auto|congruence].
  - rewrite foldl_app. simpl. apply run_state.
    destruct ls as [|l0 ls0].
    + exact Hi.
    + apply IH; [exact Hi|right; discriminate].
Qed.

Lemma document_click_sync e pg :
  installed pg -> in_sync pg -> in_sync (on_document_click e pg).
Proof.
  intros Hi Hs. destruct (document_click_state e pg Hi) as (Hclose & Hkeep & _).
  destruct (is_open pg && negb (in_nav e) && negb (in_toggle e)) eqn:Hc.
  - destruct (Hclose eq_refl) as [Ho He]. unfold in_sync. now rewrite Ho, He.
  - now rewrite (Hkeep eq_refl).
Qed.

(** After the toggle's or a link's listener the toggle's [aria-expanded]
    attribute says whether the menu is shown, and the document's
    listener keeps it so; hence after any click event that met one of
    the element listeners, and after any click at all once it held. *)
Theorem nav_attribute_follows_menu (pg : Page) (e : Click) :
  installed pg ->
  in_sync (on_toggle_click pg) /\
  in_sync (on_link_click pg) /\
  (in_sync pg -> in_sync (on_document_click e pg)) /\
  (in_sync pg \/ path e <> [] -> in_sync (dispatch e pg)).
Proof.
  intros Hi.
  split; [exact (proj1 (run_state pg ToggleListener Hi))|].
  split; [exact (proj1 (run_state pg LinkListener Hi))|].
  split; [now apply document_click_sync|].
  intros Hs. unfold dispatch.
  destruct (foldl_run_state (path e) pg Hi Hs) as [Hs' Hi'].
  now apply document_click_sync.
Qed.

Lemma nav_attribute_follows_menu_witness :
  in_sync (dispatch Samples.click_on_toggle Samples.closed_menu).
Proof.
  apply (nav_attribute_follows_menu Samples.closed_menu
           Samples.click_on_toggle).
  - split; eexists; reflexivity.
  - right. discriminate.
Defined.

(** A click on the toggle flips the menu, and the flip survives the
    document's listener, which runs for the same click. *)
Theorem toggle_click_flips_menu (pg : Page) (e : Click) :
  installed pg ->
  path e = [ToggleListener] -> in_toggle e = true ->
  is_open (dispatch e pg) = negb (is_open pg) /\
  expanded (dispatch e pg) = Some (string_of_bool (negb (is_open pg))).
Proof.
  intros Hi Hpath Hin. unfold dispatch. rewrite Hpath. simpl.
  destruct (toggle_click_state pg Hi) as (Ho & He & Hi').
  destruct (document_click_state e (on_toggle_click pg) Hi') as (_ & Hkeep & _).
  rewrite Hkeep; [auto|]. rewrite Hin. now rewrite andb_false_r.
Qed.

Lemma toggle_click_flips_menu_witness :
  is_open (dispatch Samples.click_on_toggle Samples.closed_menu)
  = negb (is_open Samples.closed_menu) /\
  expanded (dispatch Samples.click_on_toggle Samples.closed_menu)
  = Some (string_of_bool (negb (is_open Samples.closed_menu))).
Proof.
  apply (toggle_click_flips_menu Samples.closed_menu Samples.click_on_toggle);
    [split; eexists; reflexivity|reflexivity|reflexivity].
Defined.

(** A click on a link of the menu, or outside the menu and the toggle,
    leaves the menu closed; a click inside the menu that meets no
    listener leaves the page as it was. *)
Theorem click_elsewhere_closes_menu (pg : Page) (e : Click) :
  installed pg ->
  (path e = [LinkListener] ->
   is_open (dispatch e pg) = false /\
   expanded (dispatch e pg) = Some (js "false")) /\
  (path e = [] -> in_nav e = false -> in_toggle e = false ->
   is_open (dispatch e pg) = false /\
   (is_open pg = true -> expanded (dispatch e pg) = Some (js "false"))) /\
  (path e = [] -> in_nav e = true -> dispatch e pg = pg).
Proof.
  intros Hi. unfold dispatch. split; [|split].
  - intros ->. simpl.
    destruct (link_click_state pg Hi) as (Ho & He & Hi').
    destruct (document_click_state e (on_link_click pg) Hi') as (_ & Hkeep & _).
    rewrite Hkeep; [auto|]. now rewrite Ho.
  - intros -> Hn Ht. simpl.
    destruct (document_click_state e pg Hi) as (Hclose & Hkeep & _).
    rewrite Hn, Ht in *. simpl in *. rewrite andb_true_r in *.
    destruct (is_open pg) eqn:Ho.
    + destruct (Hclose eq_refl) as [Ho' He']. auto.
    + rewrite (Hkeep eq_refl), Ho. split; [reflexivity|discriminate].
  - intros -> Hn. simpl.
    destruct (document_click_state e pg Hi) as (_ & Hkeep & _).
    apply Hkeep. rewrite Hn. simpl. now rewrite andb_false_r.
Qed.

Lemma click_elsewhere_closes_menu_witness :
  is_open (dispatch Samples.click_on_link
             (dispatch Samples.click_on_toggle Samples.closed_menu)) = false /\
  expanded (dispatch Samples.click_on_link
              (dispatch Samples.click_on_toggle Samples.closed_menu))
  = Some (js "false").
Proof.
  apply (click_elsewhere_closes_menu
           (dispatch Samples.click_on_toggle Samples.closed_menu)
           Samples.click_on_link);
    [split; eexists; reflexivity|reflexivity].
Defined.

End NavFacts.

(** ** Dark mode toggle: what a click leaves behind *)

Section ThemeMoreFacts.
Import Theme.

Lemma dark_neq_light : dark <> light.
Proof. discriminate. Qed.

Lemma stored_after_click pg t :
  themeToggle pg = Some t ->
  localStorage (click pg) !! theme
  = Some (if has_dark (click pg) then dark else light).
Proof.
  intros Ht. rewrite (has_dark_click pg t Ht), (localStorage_click pg t Ht).
  apply lookup_insert_eq.
Qed.

(** After a click the class on the body, the toggle's pressed state, its
    icon and the stored preference all name the same theme.  The click
    writes no other key of the store and no other attribute of the
    toggle, and leaves the toggle's classes and style alone. *)
Theorem click_indicators_agree (pg : Page) (t : Element) :
  themeToggle pg = Some t ->
  exists t', themeToggle (click pg) = Some t' /\
    attributes t' !! aria_pressed
    = Some (string_of_bool (has_dark (click pg))) /\
    textContent t'
    = (if has_dark (click pg) then icon_light_mode else icon_dark_mode) /\
    localStorage (click pg) !! theme
    = Some (if has_dark (click pg) then dark else light) /\
    (forall k, k <> theme ->
               localStorage (click pg) !! k = localStorage pg !! k) /\
    (forall k, k <> aria_pressed -> attributes t' !! k = attributes t !! k) /\
    classList t' = classList t /\ style t' = style t.
Proof.
  intros Ht. pose proof (stored_after_click pg t Ht) as Hst.
  rewrite (has_dark_click pg t Ht) in *.
  rewrite (click_run pg t Ht) in *. cbn [themeToggle localStorage] in *.
  eexists. split; [reflexivity|]. simpl.
  split; [apply lookup_insert_eq|]. split; [reflexivity|].
  split; [exact Hst|].
  split; [intros k Hk; now apply lookup_insert_ne|].
  split; [intros k Hk; now apply lookup_insert_ne|]. auto.
Qed.

Lemma click_indicators_agree_witness :
  exists t', themeToggle (click Examples.first_visit) = Some t' /\
    attributes t' !! aria_pressed
    = Some (string_of_bool (has_dark (click Examples.first_visit))) /\
    textContent t'
    = (if has_dark (click Examples.first_visit)
       then icon_light_mode else icon_dark_mode) /\
    localStorage (click Examples.first_visit) !! theme
    = Some (if has_dark (click Examples.first_visit) then dark else light) /\
    (forall k, k <> theme ->
               localStorage (click Examples.first_visit) !! k
               = localStorage Examples.first_visit !! k) /\
    (forall k, k <> aria_pressed ->
               attributes t' !! k = attributes Examples.plain_element !! k) /\
    classList t' = classList Examples.plain_element /\
    style t' = style Examples.plain_element.
Proof.
  apply (click_indicators_agree Examples.first_visit Examples.plain_element).
  reflexivity.
Defined.

(** The preference survives a reload: when the page is loaded again with
    the store a click left, from markup whose body is not dark, the body
    is dark exactly if it was after the click, and the toggle's pressed
    state says so. *)
Theorem preference_survives_reload
    (pg : Page) (t : Element) (body0 : list jsstring) (t0 : Element) :
  themeToggle pg = Some t ->
  ClassList.contains dark body0 = false ->
  has_dark (Effects.reload body0 t0 (click pg)) = has_dark (click pg) /\
  themeToggle (Effects.reload body0 t0 (click pg))
    ≫= (fun t' => attributes t' !! aria_pressed)
  = Some (string_of_bool (has_dark (click pg))).
Proof.
  intros Ht Hb. unfold Effects.reload.
  rewrite (load_run (mkPage body0 (Some t0) (localStorage (click pg))) t0
             eq_refl).
  cbn [localStorage body].
  rewrite (stored_after_click pg t Ht).
  destruct (has_dark (click pg)).
  - rewrite bool_decide_eq_true_2 by reflexivity.
    unfold has_dark; simpl. rewrite contains_add, lookup_insert_eq. auto.
  - rewrite bool_decide_eq_false_2
      by (intros [= H]; now apply dark_neq_light).
    unfold has_dark; simpl. rewrite Hb, lookup_insert_eq. auto.
Qed.

Lemma preference_survives_reload_witness :
  has_dark (Effects.reload [] Examples.plain_element
              (click Examples.first_visit))
  = has_dark (click Examples.first_visit) /\
  themeToggle (Effects.reload [] Examples.plain_element
                 (click Examples.first_visit))
    ≫= (fun t' => attributes t' !! aria_pressed)
  = Some (string_of_bool (has_dark (click Examples.first_visit))).
Proof.
  apply (preference_survives_reload Examples.first_visit
           Examples.plain_element [] Examples.plain_element);
    reflexivity.
Defined.

Lemma themeToggle_iter_click n : forall pg t,
  themeToggle pg = Some t ->
  exists t', themeToggle (Nat.iter n click pg) = Some t'.
Proof.
  induction n as [|n IH]; intros pg t Ht; simpl; [eauto|].
  destruct (IH pg t Ht) as [t1 Ht1]. exact (themeToggle_click _ t1 Ht1).
Qed.

(** Any number of clicks: the body is dark afterwards exactly if it was
    dark before and the number is even, or was not and the number is
    odd. *)
Theorem clicks_flip_by_parity (pg : Page) (t : Element) (n : nat) :
  themeToggle pg = Some t ->
  has_dark (Nat.iter n click pg) = xorb (Nat.odd n) (has_dark pg).
Proof.
  intros Ht. induction n as [|n IH]; [reflexivity|].
  destruct (themeToggle_iter_click n pg t Ht) as [t1 Ht1].
  simpl Nat.iter. rewrite (has_dark_click _ t1 Ht1), IH.
  rewrite Nat.odd_succ, <- Nat.negb_odd.
  now destruct (Nat.odd n), (has_dark pg).
Qed.

Lemma clicks_flip_by_parity_witness :
  has_dark (Nat.iter 3 click Examples.first_visit)
  = xorb (Nat.odd 3) (has_dark Examples.first_visit).
Proof.
  apply (clicks_flip_by_parity Examples.first_visit Examples.plain_element 3).
  reflexivity.
Defined.

End ThemeMoreFacts.

(** ** Contact form: trimming, the accepted emails, repeated submits *)

Section FormMoreFacts.
Import ContactForm.

(** *** [trim] *)

Lemma drop_ws_nil s : drop_ws s = [] <-> forallb is_ws s = true.
Proof.
  induction s as [|c s IH]; simpl; [tauto|].
  destruct (is_ws c); simpl; [exact IH|]. split; discriminate.
Qed.

Lemma forallb_rev {A} (p : A -> bool) l : forallb p (rev l) = forallb p l.
Proof.
  induction l as [|x l IH]; simpl; [reflexivity|].
  rewrite forallb_app, IH. simpl. rewrite andb_true_r. apply andb_comm.
Qed.

Lemma drop_ws_fixed s : Words.starts_ws s = false -> drop_ws s = s.
Proof. destruct s as [|c s]; simpl; [reflexivity|]. now intros ->. Qed.

(** Trimming leaves nothing exactly of the strings made of whitespace. *)
Lemma trim_nil s : trim s = [] <-> forallb is_ws s = true.
Proof.
  unfold trim. split.
  - intros H. apply (f_equal (@rev N)) in H. rewrite rev_involutive in H.
    simpl in H. apply drop_ws_nil in H. rewrite forallb_rev in H.
    apply drop_ws_nil.
    destruct (drop_ws s) as [|c u] eqn:Hu; [reflexivity|].
    pose proof (starts_ws_drop_ws s) as Hst. rewrite Hu in Hst. simpl in *.
    rewrite Hst in H. discriminate.
  - intros H. apply drop_ws_nil in H. rewrite H. reflexivity.
Qed.

(** Trimming changes nothing in a string without whitespace at its
    ends. *)
Lemma trim_fixed s :
  Words.starts_ws s = false -> Words.ends_ws s = false -> trim s = s.
Proof.
  intros Hs He. unfold trim. rewrite (drop_ws_fixed s Hs).
  rewrite drop_ws_fixed by now rewrite starts_ws_rev.
  apply rev_involutive.
Qed.

Lemma falsy_field_blank nm f :
  falsy (field nm f) = true <-> Effects.blank nm f.
Proof.
  rewrite falsy_field. unfold Effects.blank.
  destruct (List.find _ f); [apply trim_nil|tauto].
Qed.

(** *** The accepted emails *)

Lemma not_space_at_facts l :
  forallb not_space_at l = true ->
  count_occ N.eq_dec l 64 = 0%nat /\ Words.no_ws l = true.
Proof.
  induction l as [|c l IH]; simpl; [auto|].
  intros H. apply andb_true_iff in H as [Hc Hl].
  destruct (IH Hl) as [Hcount Hws].
  unfold not_space_at in Hc. apply andb_true_iff in Hc as [Hw Hat].
  apply negb_true_iff, N.eqb_neq in Hat.
  split.
  - destruct (N.eq_dec c 64); [contradiction|exact Hcount].
  - unfold Words.no_ws in *. simpl. now rewrite Hw.
Qed.

Lemma no_ws_ends s : Words.no_ws s = true ->
  Words.starts_ws s = false /\ Words.ends_ws s = false.
Proof.
  intros H. split.
  - destruct s as [|c s]; [reflexivity|]. simpl in *.
    apply andb_true_iff in H as [Hc _]. now apply negb_true_iff.
  - rewrite <- starts_ws_rev.
    assert (Hr : Words.no_ws (rev s) = true)
      by (unfold Words.no_ws in *; now rewrite forallb_rev).
    destruct (rev s) as [|c r]; [reflexivity|]. simpl in *.
    apply andb_true_iff in Hr as [Hc _]. now apply negb_true_iff.
Qed.

(** What the check guarantees about an email it accepts: exactly one
    ['@'], no whitespace anywhere (so trimming it again changes nothing),
    and at least five code units. *)
Theorem accepted_email_facts (s : jsstring) :
  isValidEmail s = true ->
  count_occ N.eq_dec s 64 = 1%nat /\
  Words.no_ws s = true /\
  trim s = s /\
  (5 <= length s)%nat.
Proof.
  intros H. apply isValidEmail_shape in H
    as (l & d & t & -> & Hl & Hd & Ht & Fl & Fd & Ft).
  destruct (not_space_at_facts l Fl) as [Cl Wl].
  destruct (not_space_at_facts d Fd) as [Cd Wd].
  destruct (not_space_at_facts t Ft) as [Ct Wt].
  assert (Hws : Words.no_ws (l ++ [64] ++ d ++ [46] ++ t) = true).
  { unfold Words.no_ws in *. rewrite !forallb_app, Wl, Wd, Wt. reflexivity. }
  split; [|split; [exact Hws|split]].
  - rewrite !count_occ_app, Cl, Cd, Ct. reflexivity.
  - destruct (no_ws_ends _ Hws). now apply trim_fixed.
  - rewrite !length_app. simpl.
    destruct l; [congruence|]. destruct d; [congruence|].
    destruct t; [congruence|]. simpl. lia.
Qed.

Lemma accepted_email_facts_witness :
  count_occ N.eq_dec (js "jo@example.com") 64 = 1%nat /\
  Words.no_ws (js "jo@example.com") = true /\
  trim (js "jo@example.com") = js "jo@example.com" /\
  (5 <= length (js "jo@example.com"))%nat.
Proof. apply (accepted_email_facts (js "jo@example.com")). reflexivity. Defined.

(** *** What a submission shows *)

Lemma messages_distinct :
  msg_fill <> msg_invalid /\ msg_fill <> msg_success /\ red <> green.
Proof. repeat split; discriminate. Qed.

(** The "fill all fields" message is what a submission shows exactly
    when one of the three fields is missing or holds nothing but
    whitespace. *)
Theorem fill_message_iff_blank_field
    (pg : Page) (f : list Control) (m : Element) :
  contactForm pg = Some f -> formMsgEl pg = Some m ->
  exists w, submit pg = Some w /\
    (shown w = Some (msg_fill, Some red) <->
     Effects.blank (js "name") f \/ Effects.blank (js "email") f \/
     Effects.blank (js "message") f).
Proof.
  intros Hf Hm.
  eexists. split; [exact (submit_run pg f m Hf Hm)|].
  rewrite on_submit_run; cbn [snd form formMsg log].
  rewrite <- !falsy_field_blank.
  destruct messages_distinct as (Hne1 & Hne2 & _).
  destruct (falsy (field (js "name") f)), (falsy (field (js "email") f)),
    (falsy (field (js "message") f)); cbn [orb];
    try (rewrite shown_show; split; [auto|reflexivity]).
  destruct (isValidEmail _); rewrite shown_show;
    (split; [intros [= H]; congruence|intros [H|[H|H]]; discriminate]).
Qed.

Lemma fill_message_iff_blank_field_witness :
  exists w,
    submit (Examples.contact_form (js "Jo") (js " ") (js "hi")) = Some w /\
    (shown w = Some (msg_fill, Some red) <->
     Effects.blank (js "name") (Examples.controls (js "Jo") (js " ") (js "hi")) \/
     Effects.blank (js "email") (Examples.controls (js "Jo") (js " ") (js "hi")) \/
     Effects.blank (js "message")
       (Examples.controls (js "Jo") (js " ") (js "hi"))).
Proof.
  apply (fill_message_iff_blank_field
           (Examples.contact_form (js "Jo") (js " ") (js "hi"))
           (Examples.controls (js "Jo") (js " ") (js "hi"))
           Examples.plain_element); reflexivity.
Defined.

(** Every submission the listener handles first suppresses the native
    submission and then displays exactly one message, red or green; it is
    green exactly when validation succeeded. *)
Theorem submit_shows_one_message
    (pg : Page) (f : list Control) (m : Element) :
  contactForm pg = Some f -> formMsgEl pg = Some m ->
  exists w text color, submit pg = Some w /\
    head (log w) = Some PreventDefault /\
    Effects.messages (log w) = [(text, color)] /\
    shown w = Some (text, Some color) /\
    (color = red \/ color = green) /\
    (color = green <-> validates f = true).
Proof.
  intros Hf Hm. destruct (validates f) eqn:Hv.
  - apply validates_true in Hv as [Ho Hv].
    exists (snd (on_submit (mkWorld f (Some m) []))), msg_success, green.
    split; [exact (submit_run pg f m Hf Hm)|].
    rewrite on_submit_run; cbn [snd form formMsg log]. rewrite Ho, Hv.
    cbn [log formMsg form app]. rewrite shown_show. simpl. tauto.
  - destruct (falsy (field (js "name") f) || falsy (field (js "email") f)
              || falsy (field (js "message") f)) eqn:Ho.
    + exists (snd (on_submit (mkWorld f (Some m) []))), msg_fill, red.
      split; [exact (submit_run pg f m Hf Hm)|].
      rewrite on_submit_run; cbn [snd form formMsg log]. rewrite Ho.
      cbn [log formMsg form app]. rewrite shown_show. simpl.
      repeat split; auto; discriminate.
    + assert (Hiv : isValidEmail (to_string (field (js "email") f)) = false).
      { destruct (isValidEmail _) eqn:Hi; [|reflexivity].
        assert (validates f = true) by (apply validates_true; auto).
        congruence. }
      exists (snd (on_submit (mkWorld f (Some m) []))), msg_invalid, red.
      split; [exact (submit_run pg f m Hf Hm)|].
      rewrite on_submit_run; cbn [snd form formMsg log]. rewrite Ho, Hiv.
      cbn [log formMsg form app]. rewrite shown_show. simpl.
      repeat split; auto; discriminate.
Qed.

Lemma submit_shows_one_message_witness :
  exists w text color,
    submit (Examples.contact_form (js "Jo") (js "a@b") (js "hi")) = Some w /\
    head (log w) = Some PreventDefault /\
    Effects.messages (log w) = [(text, color)] /\
    shown w = Some (text, Some color) /\
    (color = red \/ color = green) /\
    (color = green <->
     validates (Examples.controls (js "Jo") (js "a@b") (js "hi")) = true).
Proof.
  apply (submit_shows_one_message
           (Examples.contact_form (js "Jo") (js "a@b") (js "hi"))
           (Examples.controls (js "Jo") (js "a@b") (js "hi"))
           Examples.plain_element); reflexivity.
Defined.

(** *** Submitting again *)

Lemma find_reset_control nm f :
  List.find (fun c => bool_decide (name c = nm)) (map reset_control f)
  = reset_control <$> List.find (fun c => bool_decide (name c = nm)) f.
Proof.
  induction f as [|c f IH]; simpl; [reflexivity|].
  destruct (bool_decide (name c = nm)); [reflexivity|exact IH].
Qed.

Lemma blank_after_reset nm f :
  Forall (fun c => forallb is_ws (defaultValue c) = true) f ->
  Effects.blank nm (map reset_control f).
Proof.
  intros Hd. unfold Effects.blank. rewrite find_reset_control.
  destruct (List.find _ f) as [c|] eqn:Hc; simpl; [|exact I].
  apply find_some in Hc as [Hin _].
  rewrite List.Forall_forall in Hd. now apply Hd.
Qed.

(** After a successful submission of a form whose controls are blank by
    default, the same form submitted again without new input is refused:
    the reset emptied it, and the red "fill all fields" message replaces
    the success message. *)
Theorem resubmit_after_success_is_refused
    (pg : Page) (f : list Control) (m : Element) :
  contactForm pg = Some f -> formMsgEl pg = Some m ->
  validates f = true ->
  Forall (fun c => forallb is_ws (defaultValue c) = true) f ->
  exists w w2, submit pg = Some w /\
    shown w = Some (msg_success, Some green) /\
    submit (Effects.page_of w) = Some w2 /\
    shown w2 = Some (msg_fill, Some red) /\
    form w2 = form w.
Proof.
  intros Hf Hm Hv Hd. apply validates_true in Hv as [Ho Hv].
  rewrite (submit_run pg f m Hf Hm), on_submit_run.
  cbn [snd form formMsg log]. rewrite Ho, Hv.
  eexists. eexists. split; [reflexivity|].
  split; [apply shown_show|].
  unfold Effects.page_of, submit; cbn [contactForm formMsgEl form formMsg show].
  cbn [fmap option_fmap option_map].
  split; [reflexivity|].
  rewrite on_submit_run; cbn [snd form formMsg log].
  assert (Hb : falsy (field (js "name") (map reset_control f)) = true)
    by (apply falsy_field_blank, blank_after_reset, Hd).
  rewrite Hb. cbn [orb form]. split; [apply shown_show|reflexivity].
Qed.

Lemma resubmit_after_success_is_refused_witness :
  exists w w2,
    submit (Examples.contact_form (js "Jo") (js "jo@example.com") (js "hi"))
    = Some w /\
    shown w = Some (msg_success, Some green) /\
    submit (Effects.page_of w) = Some w2 /\
    shown w2 = Some (msg_fill, Some red) /\
    form w2 = form w.
Proof.
  apply (resubmit_after_success_is_refused
           (Examples.contact_form (js "Jo") (js "jo@example.com") (js "hi"))
           (Examples.controls (js "Jo") (js "jo@example.com") (js "hi"))
           Examples.plain_element); try reflexivity.
  repeat constructor.
Defined.

End FormMoreFacts.

(** ** Scroll reveal: whole batches, and the fallback *)

Section RevealMoreFacts.
Import Reveal.

Lemma classList_add_idem c x :
  classList_add c (classList_add c x) = classList_add c x.
Proof.
  unfold classList_add, set_classList; simpl. f_equal.
  unfold ClassList.add at 1. now rewrite contains_add.
Qed.

Lemma reveal_if_compose b1 b2 x :
  Effects.reveal_if b2 (Effects.reveal_if b1 x) = Effects.reveal_if (b1 || b2) x.
Proof.
  destruct b1, b2; simpl; try reflexivity. apply classList_add_idem.
Qed.

Lemma document_on_entry_lookup s e el :
  document (on_entry s e) !! el =
  Effects.reveal_if (isIntersecting e && bool_decide (target e = el))
    <$> document s !! el.
Proof.
  unfold on_entry. destruct (isIntersecting e); cbn [document andb].
  - destruct (decide (target e = el)) as [->|Hne].
    + rewrite lookup_alter_eq, bool_decide_eq_true_2 by reflexivity.
      reflexivity.
    + rewrite lookup_alter_ne, bool_decide_eq_false_2 by assumption.
      now destruct (document s !! el).
  - now destruct (document s !! el).
Qed.

Lemma elem_of_revealed el es :
  el ∈ Effects.revealed es <->
  exists e, In e es /\ isIntersecting e = true /\ target e = el.
Proof.
  unfold Effects.revealed. rewrite list_elem_of_fmap. split.
  - intros (e & -> & He). apply list_elem_of_In, filter_In in He.
    exists e. tauto.
  - intros (e & Hin & Hi & <-). exists e. split; [reflexivity|].
    apply list_elem_of_In, filter_In. auto.
Qed.

Lemma revealed_cons_hit e es el :
  bool_decide (el ∈ Effects.revealed (e :: es)) =
  (isIntersecting e && bool_decide (target e = el))
  || bool_decide (el ∈ Effects.revealed es).
Proof.
  apply eq_true_iff_eq.
  rewrite orb_true_iff, andb_true_iff, !bool_decide_eq_true, !elem_of_revealed.
  split.
  - intros (e0 & [<-|Hin] & Hi & Ht); [auto|]. right. eauto.
  - intros [[Hi Ht]|(e0 & Hin & Hi & Ht)].
    + exists e. simpl. auto.
    + exists e0. simpl. auto.
Qed.

(** What a batch does to an element: the active class is added if some
    entry of the batch reports the element intersecting. *)
Lemma callback_lookup es : forall s el,
  document (callback es s) !! el =
  Effects.reveal_if (bool_decide (el ∈ Effects.revealed es))
    <$> document s !! el.
Proof.
  induction es as [|e es IH]; intros s el.
  - unfold callback; simpl. now destruct (document s !! el).
  - change (callback (e :: es) s) with (callback es (on_entry s e)).
    rewrite IH, document_on_entry_lookup, revealed_cons_hit.
    destruct (document s !! el) as [x|]; simpl; [|reflexivity].
    now rewrite reveal_if_compose.
Qed.

(** What a batch does to the observer: the elements it reports
    intersecting are taken off the list. *)
Lemma callback_observed es : forall s el,
  el ∈ observed (callback es s) <->
  el ∈ observed s /\ el ∉ Effects.revealed es.
Proof.
  induction es as [|e es IH]; intros s el.
  - unfold callback, Effects.revealed; simpl. rewrite elem_of_nil. tauto.
  - change (callback (e :: es) s) with (callback es (on_entry s e)).
    rewrite IH, observed_on_entry.
    rewrite <- (bool_decide_eq_false (el ∈ Effects.revealed (e :: es))),
      revealed_cons_hit, orb_false_iff, andb_false_iff,
      !bool_decide_eq_false.
    destruct (isIntersecting e).
    + rewrite elem_of_difference, elem_of_singleton. intuition congruence.
    + intuition congruence.
Qed.

Lemma state_eq (a b : State) :
  document a = document b -> observed a = observed b -> a = b.
Proof. destruct a, b; simpl; congruence. Qed.

(** A batch acts through the set of its entries: two batches with the
    same entries, in any order and however often repeated, leave the same
    state, and a batch delivered a second time changes nothing. *)
Theorem callback_depends_on_entry_set (s : State) (es es' : list Entry) :
  (forall e, In e es <-> In e es') ->
  callback es s = callback es' s /\
  callback es (callback es' s) = callback es' s.
Proof.
  intros Hsame.
  assert (Hrev : forall el, el ∈ Effects.revealed es
                            <-> el ∈ Effects.revealed es').
  { intros el. rewrite !elem_of_revealed. split;
      intros (e & Hin & H); exists e; (split; [now apply Hsame|exact H]). }
  assert (Hone : callback es s = callback es' s).
  { apply state_eq.
    - apply map_eq. intros el. rewrite !callback_lookup.
      now rewrite (bool_decide_ext _ _ (Hrev el)).
    - apply set_eq. intros el. rewrite !callback_observed, Hrev. tauto. }
  split; [exact Hone|].
  apply state_eq.
  - apply map_eq. intros el. rewrite !callback_lookup.
    rewrite (bool_decide_ext _ _ (Hrev el)).
    destruct (document s !! el) as [x|]; simpl; [|reflexivity].
    now rewrite reveal_if_compose, orb_diag.
  - apply set_eq. intros el. rewrite !callback_observed, Hrev. tauto.
Qed.

Lemma callback_depends_on_entry_set_witness :
  callback [mkEntry true 0; mkEntry false 0] Examples.reveal_start
  = callback [mkEntry false 0; mkEntry true 0; mkEntry true 0]
      Examples.reveal_start /\
  callback [mkEntry true 0; mkEntry false 0]
    (callback [mkEntry false 0; mkEntry true 0; mkEntry true 0]
       Examples.reveal_start)
  = callback [mkEntry false 0; mkEntry true 0; mkEntry true 0]
      Examples.reveal_start.
Proof.
  apply (callback_depends_on_entry_set Examples.reveal_start).
  intros e. simpl. tauto.
Defined.

(** The callback only ever adds the active class: an element keeps its
    other classes, its text, attributes and style, no element appears or
    disappears, and an element no entry reports intersecting is left
    exactly as it was. *)
Theorem callback_only_adds_active
    (s : State) (es : list Entry) (el : nat) (x : Element) :
  document s !! el = Some x ->
  exists x', document (callback es s) !! el = Some x' /\
    (forall c, c ∈ classList x' <-> c ∈ classList x \/
               (c = active /\ el ∈ Effects.revealed es)) /\
    textContent x' = textContent x /\
    attributes x' = attributes x /\
    style x' = style x /\
    (el ∉ Effects.revealed es -> x' = x).
Proof.
  intros Hx. rewrite callback_lookup, Hx. simpl. eexists. split; [reflexivity|].
  case_bool_decide as Hhit; simpl.
  - split; [|tauto]. intros c. unfold classList_add; simpl.
    rewrite elem_of_add. tauto.
  - split; [|tauto]. intros c. tauto.
Qed.

Lemma callback_only_adds_active_witness :
  exists x',
    document (callback [mkEntry true 0] Examples.reveal_start) !! 0%nat
    = Some x' /\
    (forall c, c ∈ classList x' <->
               c ∈ classList (mkElement [reveal] [] ∅ ∅) \/
               (c = active /\ 0%nat ∈ Effects.revealed [mkEntry true 0])) /\
    textContent x' = textContent (mkElement [reveal] [] ∅ ∅) /\
    attributes x' = attributes (mkElement [reveal] [] ∅ ∅) /\
    style x' = style (mkElement [reveal] [] ∅ ∅) /\
    (0%nat ∉ Effects.revealed [mkEntry true 0] ->
     x' = mkElement [reveal] [] ∅ ∅).
Proof.
  apply (callback_only_adds_active Examples.reveal_start [mkEntry true 0] 0).
  reflexivity.
Defined.

(** After any sequence of notifications the observer still watches an
    element exactly if it watched it before and no entry ever reported it
    intersecting. *)
Theorem still_watched_iff_never_revealed
    (s : State) (batches : list (list Entry)) (el : nat) :
  el ∈ observed (notify batches s) <->
  el ∈ observed s /\
  forall b e, In b batches -> In e b -> target e = el ->
              isIntersecting e = false.
Proof.
  rewrite notify_concat, callback_observed, elem_of_revealed.
  split; intros [Hobs Hno]; (split; [exact Hobs|]).
  - intros b e Hb He Ht. destruct (isIntersecting e) eqn:Hi; [|reflexivity].
    exfalso. apply Hno. exists e. split; [|auto].
    apply in_concat. eauto.
  - intros (e & Hin & Hi & Ht). apply in_concat in Hin as (b & Hb & He).
    rewrite (Hno b e Hb He Ht) in Hi. discriminate.
Qed.

End RevealMoreFacts.

Section RevealFallbackFacts.
Import Reveal.

Lemma elem_of_revealElements doc el :
  el ∈ revealElements doc <->
  exists x, doc !! el = Some x /\ reveal ∈ classList x.
Proof.
  unfold revealElements. rewrite elem_of_dom. unfold is_Some.
  setoid_rewrite map_lookup_filter_Some. naive_solver.
Qed.

Lemma set_fold_alter_lookup (g : Element -> Element)
    (doc : gmap nat Element) (X : gset nat) (el : nat) :
  set_fold (fun k d => alter g k d) doc X !! el =
  (fun x => if bool_decide (el ∈ X) then g x else x) <$> doc !! el.
Proof.
  set (P := fun (r : gmap nat Element) (Y : gset nat) =>
              forall k, r !! k =
                (fun x => if bool_decide (k ∈ Y) then g x else x)
                  <$> doc !! k).
  assert (H : P (set_fold (fun k d => alter g k d) doc X) X);
    [|exact (H el)].
  clear el. apply set_fold_ind_L; unfold P.
  - intros el. destruct (doc !! el); reflexivity.
  - intros k Y r Hk IH el.
    destruct (decide (k = el)) as [->|Hne].
    + rewrite lookup_alter_eq, IH.
      rewrite bool_decide_eq_false_2 by exact Hk.
      rewrite bool_decide_eq_true_2
        by (apply elem_of_union; left; now apply elem_of_singleton).
      now destruct (doc !! el).
    + rewrite lookup_alter_ne, IH by exact Hne.
      destruct (doc !! el) as [x|]; simpl; [|reflexivity].
      f_equal. apply (f_equal (fun b : bool => if b then g x else x)).
      apply bool_decide_ext.
      rewrite elem_of_union, elem_of_singleton. split; [auto|].
      intros [->|?]; [contradiction|assumption].
Qed.

(** Without [IntersectionObserver], the reveal block adds the active
    class to every reveal-flagged element, leaves every other element as
    it found it, and watches nothing. *)
Theorem fallback_activates_all (doc : gmap nat Element) (el : nat) :
  document (init false doc) !! el =
  (fun x => Effects.reveal_if (ClassList.contains reveal (classList x)) x)
    <$> doc !! el /\
  observed (init false doc) = ∅.
Proof.
  unfold init. case_bool_decide as Hsize; cbn [document observed].
  - split; [|reflexivity]. rewrite set_fold_alter_lookup.
    destruct (doc !! el) as [x|] eqn:Hx; simpl; [|reflexivity].
    f_equal. unfold Effects.reveal_if, ClassList.contains.
    apply (f_equal (fun b : bool => if b then classList_add active x else x)).
    apply bool_decide_ext. rewrite elem_of_revealElements. split.
    + intros (x' & Hx' & Hr). congruence.
    + eauto.
  - split; [|reflexivity].
    destruct (doc !! el) as [x|] eqn:Hx; simpl; [|reflexivity].
    f_equal. unfold Effects.reveal_if.
    rewrite (proj2 (contains_not_elem_of reveal (classList x)));
      [reflexivity|].
    intros Hr.
    assert (Hin : el ∈ revealElements doc)
      by (apply elem_of_revealElements; eauto).
    assert (Hpos : (0 < size (revealElements doc))%nat); [|contradiction].
    destruct (size (revealElements doc)) eqn:Hs; [|lia].
    apply size_empty_iff in Hs. apply Hs in Hin.
    now apply not_elem_of_empty in Hin.
Qed.

End RevealFallbackFacts.

(** ** Skill bars: what a batch schedules, and what a timer does *)

Section SkillsMoreFacts.
Import Skills.

Lemma on_entry_with_bar index e s b :
  isIntersecting e = true ->
  document s !! target e ≫= bar = Some b ->
  on_entry index e s =
  Completed (mkState (document s) (observed s ∖ {[target e]})
               (timers s ++ [mkTimer (index * 180) (target e)
                               (dataset_skill b)])).
Proof. intros Hi Hb. unfold on_entry. now rewrite Hi, Hb. Qed.

Lemma callback_from_app es1 : forall index es2 s,
  callback_from index (es1 ++ es2) s =
  match callback_from index es1 s with
  | Completed s1 => callback_from (index + length es1) es2 s1
  | TypeError s1 => TypeError s1
  end.
Proof.
  induction es1 as [|e es1 IH]; intros index es2 s; simpl.
  - now rewrite Nat.add_0_r.
  - destruct (on_entry index e s) as [s1|s1]; [|reflexivity].
    rewrite IH. now rewrite Nat.add_succ_r.
Qed.

Lemma callback_from_schedules entries : forall index s,
  Forall (fun e => isIntersecting e = true ->
                   exists b, document s !! target e ≫= bar = Some b)
    entries ->
  exists s', callback_from index entries s = Completed s' /\
    document s' = document s /\
    timers s' = timers s ++ Effects.scheduled index entries (document s) /\
    (forall el, el ∈ observed s' <->
                el ∈ observed s /\ el ∉ Effects.skills_seen entries).
Proof.
  induction entries as [|e es IH]; intros index s Hall.
  - exists s. simpl. rewrite app_nil_r.
    split; [reflexivity|]. split; [reflexivity|]. split; [reflexivity|].
    intros el. unfold Effects.skills_seen; simpl. rewrite elem_of_nil. tauto.
  - apply Forall_cons in Hall as [He Hes]. simpl.
    destruct (isIntersecting e) eqn:Hi.
    + destruct (He eq_refl) as [b Hb].
      rewrite (on_entry_with_bar index e s b Hi Hb).
      destruct (IH (S index)
                  (mkState (document s) (observed s ∖ {[target e]})
                     (timers s ++ [mkTimer (index * 180) (target e)
                                     (dataset_skill b)])) Hes)
        as (s' & Hrun & Hdoc & Htim & Hobs).
      exists s'. split; [exact Hrun|]. split; [exact Hdoc|]. split.
      * rewrite Htim. cbn [timers document]. rewrite <- app_assoc.
        f_equal. simpl. f_equal. f_equal.
        destruct (document s !! target e) as [sk|]; [|discriminate].
        simpl in *. now rewrite Hb.
      * intros el. rewrite Hobs. cbn [observed].
        unfold Effects.skills_seen; simpl. rewrite Hi. simpl.
        rewrite elem_of_difference, elem_of_singleton, elem_of_cons.
        intuition congruence.
    + rewrite (on_entry_skipped index e s Hi).
      destruct (IH (S index) s Hes) as (s' & Hrun & Hdoc & Htim & Hobs).
      exists s'. split; [exact Hrun|]. split; [exact Hdoc|].
      split; [exact Htim|].
      intros el. rewrite Hobs. unfold Effects.skills_seen; simpl.
      now rewrite Hi.
Qed.

(** When every item a batch reports intersecting has its bar, the
    callback completes: it sets one timer per intersecting entry, in the
    batch's order, delayed by 180 ms times the entry's position in the
    batch (entries that do not intersect count for the position), stops
    watching exactly those items, and changes no element yet. *)
Theorem callback_schedules_staggered (entries : list Entry) (s : State) :
  Forall (fun e => isIntersecting e = true ->
                   exists b, document s !! target e ≫= bar = Some b)
    entries ->
  exists s', callback entries s = Completed s' /\
    document s' = document s /\
    timers s' = timers s ++ Effects.scheduled 0 entries (document s) /\
    (forall el, el ∈ observed s' <->
                el ∈ observed s /\ el ∉ Effects.skills_seen entries).
Proof. apply callback_from_schedules. Qed.

Lemma callback_schedules_staggered_witness :
  exists s',
    callback [mkEntry true 1; mkEntry false 0; mkEntry true 0]
      Samples.two_skills = Completed s' /\
    document s' = document Samples.two_skills /\
    timers s' =
      timers Samples.two_skills ++
      Effects.scheduled 0 [mkEntry true 1; mkEntry false 0; mkEntry true 0]
        (document Samples.two_skills) /\
    (forall el, el ∈ observed s' <->
                el ∈ observed Samples.two_skills /\
                el ∉ Effects.skills_seen
                       [mkEntry true 1; mkEntry false 0; mkEntry true 0]).
Proof.
  apply (callback_schedules_staggered
           [mkEntry true 1; mkEntry false 0; mkEntry true 0]
           Samples.two_skills).
  repeat constructor; intros _; eexists; reflexivity.
Defined.

(** An intersecting item without its bar stops the batch where it
    stands: the entries before it are handled, the item itself and every
    entry after it are not, so they stay watched and get no timer. *)
Theorem broken_item_blocks_rest
    (before after : list Entry) (e : Entry) (s s1 : State) :
  callback before s = Completed s1 ->
  isIntersecting e = true ->
  document s1 !! target e ≫= bar = None ->
  callback (before ++ e :: after) s = TypeError s1.
Proof.
  intros Hbefore Hi Hbar. unfold callback in *.
  rewrite callback_from_app, Hbefore. simpl.
  unfold on_entry. now rewrite Hi, Hbar.
Qed.

Lemma broken_item_blocks_rest_witness :
  callback ([] ++ mkEntry true 0 :: [mkEntry true 0])
    Examples.skills_without_bar
  = TypeError Examples.skills_without_bar.
Proof.
  apply (broken_item_blocks_rest [] [mkEntry true 0] (mkEntry true 0)
           Examples.skills_without_bar Examples.skills_without_bar);
    reflexivity.
Defined.

(** From an item coming into view to its timer firing: the timer is
    delayed by 180 ms times the entry's position; when it fires the item
    gets the active class, and its bar gets as width the value of its
    [data-skill] attribute followed by a percent sign if the browser
    accepts that string as a width, and keeps the width it had otherwise.
    For a bar without the attribute the string is ["undefined%"].  Other
    items are untouched. *)
Theorem timer_sets_bar_width
    (accepts : jsstring -> bool)
    (index : nat) (e : Entry) (s : State) (sk : Skill) (b : Bar) :
  isIntersecting e = true ->
  document s !! target e = Some sk -> bar sk = Some b ->
  exists s' t,
    on_entry index e s = Completed s' /\
    timers s' = timers s ++ [t] /\ delay t = (index * 180)%nat /\
    document (fire accepts t s') !! target e =
      Some (mkSkill (ClassList.add (js "active") (classList sk))
              (Some (mkBar (dataset_skill b)
                       (if accepts (percent (dataset_skill b))
                        then Some (percent (dataset_skill b))
                        else width b)))) /\
    (dataset_skill b = None ->
     percent (dataset_skill b) = js "undefined%") /\
    (forall v, dataset_skill b = Some v ->
               percent (dataset_skill b) = v ++ js "%") /\
    (forall el, el <> target e ->
                document (fire accepts t s') !! el = document s !! el).
Proof.
  intros Hi Hsk Hbar.
  assert (Hb : document s !! target e ≫= bar = Some b)
    by (rewrite Hsk; exact Hbar).
  rewrite (on_entry_with_bar index e s b Hi Hb).
  eexists. eexists. split; [reflexivity|]. cbn [timers].
  split; [reflexivity|]. split; [reflexivity|].
  unfold fire; cbn [document timer_skill timer_target].
  split; [rewrite lookup_alter_eq, Hsk; simpl; now rewrite Hbar|].
  split; [now intros ->|].
  split; [now intros v ->|].
  intros el Hne. now apply lookup_alter_ne.
Qed.

Lemma timer_sets_bar_width_witness :
  (exists s' t,
      on_entry 0 (mkEntry true 0) Samples.two_skills = Completed s' /\
      document (fire Samples.digits_percent t s') !! 0%nat =
        Some (mkSkill [js "skill"; js "active"]
                (Some (mkBar (Some (js "90")) (Some (js "90%")))))) /\
  (exists s' t,
      on_entry 1 (mkEntry true 1) Samples.two_skills = Completed s' /\
      document (fire Samples.digits_percent t s') !! 1%nat =
        Some (mkSkill [js "skill"; js "active"] (Some (mkBar None None)))).
Proof.
  split.
  - destruct (timer_sets_bar_width Samples.digits_percent 0 (mkEntry true 0)
                Samples.two_skills
                (mkSkill [js "skill"] (Some (mkBar (Some (js "90")) None)))
                (mkBar (Some (js "90")) None) eq_refl eq_refl eq_refl)
      as (s' & t & Hrun & _ & _ & Hfire & _).
    exists s', t. split; [exact Hrun|exact Hfire].
  - destruct (timer_sets_bar_width Samples.digits_percent 1 (mkEntry true 1)
                Samples.two_skills
                (mkSkill [js "skill"] (Some (mkBar None None)))
                (mkBar None None) eq_refl eq_refl eq_refl)
      as (s' & t & Hrun & _ & _ & Hfire & _).
    exists s', t. split; [exact Hrun|exact Hfire].
Defined.

End SkillsMoreFacts.

(** ** Word by word text reveal: what happens to the text *)

Section WordsMoreFacts.
Import Words.

Lemma concat_split_ws s :
  concat (split_ws s) = List.filter (fun c => negb (is_ws c)) s.
Proof.
  induction s as [|c s IH]; simpl; [reflexivity|].
  destruct (is_ws c); simpl.
  - destruct (starts_ws s); [exact IH|]. simpl. exact IH.
  - destruct (split_ws s) as [|w ws]; simpl in *; now rewrite <- IH.
Qed.

Lemma filter_drop_ws s :
  List.filter (fun c => negb (is_ws c)) (drop_ws s)
  = List.filter (fun c => negb (is_ws c)) s.
Proof.
  induction s as [|c s IH]; simpl; [reflexivity|].
  destruct (is_ws c) eqn:Hc; simpl; [exact IH|]. now rewrite Hc.
Qed.

Lemma filter_trim s :
  List.filter (fun c => negb (is_ws c)) (trim s)
  = List.filter (fun c => negb (is_ws c)) s.
Proof.
  unfold trim.
  now rewrite List.filter_rev, filter_drop_ws, List.filter_rev, rev_involutive,
    filter_drop_ws.
Qed.

Lemma no_ws_filter s : no_ws (List.filter (fun c => negb (is_ws c)) s) = true.
Proof.
  unfold no_ws. apply forallb_forall. intros c Hc.
  now apply filter_In in Hc.
Qed.

Lemma split_ws_no_ws_word s : no_ws s = true -> split_ws s = [s].
Proof.
  unfold no_ws. induction s as [|c s IH]; simpl; [reflexivity|].
  intros H. apply andb_true_iff in H as [Hc Hs].
  apply negb_true_iff in Hc. rewrite Hc, (IH Hs). reflexivity.
Qed.

(** The rebuilt element's text is the original text with every
    whitespace character removed: the words follow one another with
    nothing between them.  Run on its own result, the script therefore
    finds a single word and leaves a single span. *)
Theorem animate_drops_whitespace (children : list Node) :
  textContent (animate children)
  = List.filter (fun c => negb (is_ws c)) (textContent children) /\
  length (animate (animate children)) = 1%nat.
Proof.
  assert (Htext : textContent (animate children)
                  = List.filter (fun c => negb (is_ws c))
                      (textContent children)).
  { unfold animate. rewrite textContent_append_words. simpl.
    now rewrite concat_split_ws, filter_trim. }
  split; [exact Htext|].
  unfold animate at 1. rewrite append_words_imap. simpl.
  rewrite length_imap, Htext.
  pose proof (no_ws_filter (textContent children)) as Hws.
  destruct (no_ws_ends _ Hws) as [Hs He].
  now rewrite (trim_fixed _ Hs He), (split_ws_no_ws_word _ Hws).
Qed.

End WordsMoreFacts.

(** ** Back to top button: a whole scroll *)

Section BackToTopMoreFacts.
Import BackToTop.

Lemma scrolled_button y w b :
  backToTopBtn w = Some b ->
  Effects.scrolled y w =
  mkWindow y
    (Some (set_style display
             (if (300 <? y)%float then js "block" else js "none") b)).
Proof. intros Hb. unfold Effects.scrolled, on_scroll; simpl. now rewrite Hb. Qed.

Lemma scroll_through_button ys : forall w b,
  backToTopBtn w = Some b ->
  exists b', backToTopBtn (Effects.scroll_through ys w) = Some b' /\
    classList b' = classList b /\ textContent b' = textContent b /\
    attributes b' = attributes b /\
    (forall k, k <> display -> style b' !! k = style b !! k).
Proof.
  unfold Effects.scroll_through.
  induction ys as [|y ys IH]; intros w b Hb; simpl; [eauto 10|].
  rewrite (scrolled_button y w b Hb).
  destruct (IH (mkWindow y
                  (Some (set_style display
                           (if (300 <? y)%float then js "block"
                            else js "none") b))) _ eq_refl)
    as (b' & Hb' & Hc & Ht & Ha & Hs).
  exists b'. split; [exact Hb'|]. simpl in *.
  repeat split; try assumption.
  intros k Hk. rewrite (Hs k Hk). now apply lookup_insert_ne.
Qed.

(** However the page was scrolled, the button's display after the last
    scroll event is decided by the last offset alone, and nothing else
    of the button has changed.  In particular, once the smooth scroll the
    button's own click asks for has arrived at its target, the top of the
    page, the button is hidden. *)
Theorem back_to_top_follows_last_offset
    (w : Window) (b : Element) (ys : list float) (y : float) :
  backToTopBtn w = Some b ->
  displayed (Effects.scroll_through (ys ++ [y]) w)
  = Some (if (300 <? y)%float then js "block" else js "none") /\
  (exists b', backToTopBtn (Effects.scroll_through (ys ++ [y]) w) = Some b' /\
     classList b' = classList b /\ textContent b' = textContent b /\
     attributes b' = attributes b /\
     (forall k, k <> display -> style b' !! k = style b !! k)) /\
  displayed
    (Effects.scroll_through (ys ++ [Effects.top Effects.on_back_to_top_click])
       w)
  = Some (js "none").
Proof.
  intros Hb.
  assert (Hlast : forall y',
    displayed (Effects.scroll_through (ys ++ [y']) w)
    = Some (if (300 <? y')%float then js "block" else js "none")).
  { intros y'. unfold Effects.scroll_through. rewrite foldl_app. simpl.
    destruct (scroll_through_button ys w b Hb) as (b1 & Hb1 & _).
    unfold Effects.scroll_through in Hb1.
    rewrite (scrolled_button y' _ b1 Hb1). unfold displayed; simpl.
    apply lookup_insert_eq. }
  split; [apply Hlast|]. split; [now apply scroll_through_button|].
  rewrite Hlast. reflexivity.
Qed.

Lemma back_to_top_follows_last_offset_witness :
  displayed (Effects.scroll_through ([500%float; 120%float] ++ [0%float])
               Examples.scrolled_301)
  = Some (js "none").
Proof.
  exact (proj1 (back_to_top_follows_last_offset Examples.scrolled_301
                  Examples.plain_element [500%float; 120%float] 0%float
                  eq_refl)).
Defined.

End BackToTopMoreFacts.
